(** * starknet.js [src/contract.ts]: calldata encoder, response decoder
      and argument validator, as a shallow embedding.

    The TypeScript module is translated function by function.  JavaScript
    exceptions become the [Err] side of a small error monad, the shared
    response iterator becomes an explicitly threaded cursor, and plain
    JavaScript objects become association lists kept in property
    enumeration order. *)

From Stdlib Require Import String Ascii List NArith Arith Bool Lia.
From Stdlib Require Import Decimal DecimalString DecimalN DecimalPos.
Import ListNotations.
Local Open Scope list_scope.
Local Open Scope string_scope.

Set Implicit Arguments.
Set Warnings "-register-all".

(** ** Exceptions *)

Module Js.

(** What a [throw] carries.  [minimalistic-assert] throws an [Error] with
    the given message (as does the assertion inside [BN]), the number parser
    throws on a malformed numeral, the runtime throws a [TypeError] on a
    property access on [undefined] and a [RangeError] on an array grown past
    its largest length, and unbounded recursion exhausts the call stack. *)
Inductive error : Type :=
| AssertionError (msg : string)
| ParseError
| TypeError
| RangeError
| StackExhausted.

Inductive result (A : Type) : Type :=
| Ok (a : A)
| Err (e : error).

Arguments Ok {A} a.
Arguments Err {A} e.

Definition bind {A B : Type} (m : result A) (k : A -> result B) : result B :=
  match m with
  | Ok a => k a
  | Err e => Err e
  end.

Definition assert (cond : bool) (msg : string) : result unit :=
  if cond then Ok tt else Err (AssertionError msg).

Definition is_ok {A : Type} (m : result A) : bool :=
  match m with
  | Ok _ => true
  | Err _ => false
  end.

End Js.

Export Js.

Declare Scope js_scope.
Delimit Scope js_scope with js.
Notation "x <- m ;; k" := (bind m (fun x => k))
  (at level 61, m at next level, right associativity) : js_scope.
Notation "m ;;; k" := (bind m (fun _ => k))
  (at level 61, right associativity) : js_scope.
Local Open Scope js_scope.

(** [Array.prototype.map] with a callback that may throw: elements are
    visited left to right and the first exception escapes. *)
Fixpoint mapM {A B : Type} (f : A -> result B) (l : list A) : result (list B) :=
  match l with
  | [] => Ok []
  | x :: tl =>
      y <- f x ;;
      ys <- mapM f tl ;;
      Ok (y :: ys)
  end.

(** [Array.prototype.flatMap] with a callback that may throw. *)
Fixpoint flatMapM {A B : Type} (f : A -> result (list B)) (l : list A)
  : result (list B) :=
  match l with
  | [] => Ok []
  | x :: tl =>
      ys <- f x ;;
      zs <- flatMapM f tl ;;
      Ok (ys ++ zs)%list
  end.

(** [Array.prototype.forEach] with a callback that may throw; the callback
    receives the element and its index. *)
Fixpoint forEachM_from {A : Type} (i : nat) (f : A -> nat -> result unit)
  (l : list A) : result unit :=
  match l with
  | [] => Ok tt
  | x :: tl => f x i ;;; forEachM_from (S i) f tl
  end.

Definition forEachM {A : Type} (f : A -> nat -> result unit) (l : list A)
  : result unit :=
  forEachM_from 0 f l.

(** [Array.prototype.reduce] with a callback that may throw. *)
Fixpoint reduceM {A S : Type} (f : S -> A -> result S) (l : list A) (acc : S)
  : result S :=
  match l with
  | [] => Ok acc
  | x :: tl =>
      acc' <- f acc x ;;
      reduceM f tl acc'
  end.

(** ** JavaScript values and objects *)

(** A plain object, as the list of its own enumerable properties in
    enumeration order (insertion order for every key that is not an array
    index; ABI names are identifiers).  Keys are unique: [dict_set] is the
    only way the code below extends one.  Properties inherited from
    [Object.prototype] are not part of the list: [prop] and
    [member_entries] add them where the code looks them up. *)
Definition dict (A : Type) : Type := list (string * A).

Fixpoint dict_get {A : Type} (k : string) (o : dict A) : option A :=
  match o with
  | [] => None
  | (k', v) :: tl => if String.eqb k' k then Some v else dict_get k tl
  end.

(** [{ ...o, [k]: v }]: an existing key keeps its position and takes the
    new value, a new key goes last. *)
Fixpoint dict_set {A : Type} (k : string) (v : A) (o : dict A) : dict A :=
  match o with
  | [] => [(k, v)]
  | (k', v') :: tl =>
      if String.eqb k' k then (k', v) :: tl else (k', v') :: dict_set k v tl
  end.

Definition has_key {A : Type} (k : string) (o : dict A) : bool :=
  match dict_get k o with
  | Some _ => true
  | None => false
  end.

(** The values the codec meets at run time: [undefined], strings, numeric
    values ([number] or [BN], a natural number here), arrays, plain objects,
    and the functions that every object inherits from [Object.prototype]
    (named by the property they are found under). *)
Inductive value : Type :=
| VUndef
| VStr (s : string)
| VNum (n : N)
| VArr (l : list value)
| VObj (o : list (string * value))
| VFun (k : string).

(** [export type Args = { [inputName: string]: ... }] *)
Definition Args : Type := dict value.

(** [export type Calldata = string[]] *)
Definition Calldata : Type := list string.

(** The property names every plain object inherits from
    [Object.prototype]: a lookup and the [in] operator find them in any
    object that has no own property of that name. *)
Definition inherited_names : list string :=
  ["constructor"; "hasOwnProperty"; "isPrototypeOf"; "propertyIsEnumerable";
   "toLocaleString"; "toString"; "valueOf"; "__proto__";
   "__defineGetter__"; "__defineSetter__"; "__lookupGetter__";
   "__lookupSetter__"].

Definition is_inherited (k : string) : bool :=
  existsb (String.eqb k) inherited_names.

(** What an inherited name reads as: the prototype object itself under
    [__proto__] (it has no enumerable property), a function under every
    other name. *)
Definition inherited_value (k : string) : value :=
  if String.eqb k "__proto__" then VObj [] else VFun k.

(** [o[k]]: an own property, else an inherited one, else [undefined]. *)
Definition prop (k : string) (o : dict value) : value :=
  match dict_get k o with
  | Some v => v
  | None => if is_inherited k then inherited_value k else VUndef
  end.

(** [typeof v === 'string'] *)
Definition is_string (v : value) : bool :=
  match v with
  | VStr _ => true
  | _ => false
  end.

(** [v === undefined] *)
Definition is_undefined (v : value) : bool :=
  match v with
  | VUndef => true
  | _ => false
  end.

(** [typeof v === 'object']: arrays are objects too. *)
Definition is_object (v : value) : bool :=
  match v with
  | VArr _ | VObj _ => true
  | _ => false
  end.

(** [Array.isArray(v)] *)
Definition isArray (v : value) : bool :=
  match v with
  | VArr _ => true
  | _ => false
  end.

(** The elements of an array, for [v.forEach] and [v.map]. *)
Definition elements (v : value) : list value :=
  match v with
  | VArr l => l
  | _ => []
  end.

(** [k in v], for a value that is an object: an array has its indices and
    [length], no named property. *)
Definition has_property (k : string) (v : value) : bool :=
  match v with
  | VObj o => has_key k o
  | _ => false
  end.

(** [v[k]] for a named property [k]. *)
Definition get_property (k : string) (v : value) : value :=
  match v with
  | VObj o => prop k o
  | _ => VUndef
  end.

(** [v === s] for a string literal [s]. *)
Definition strict_eq_string (v : value) (s : string) : bool :=
  match v with
  | VStr t => String.eqb t s
  | _ => false
  end.

(** ** Felt numerals ([utils/number]) *)

(** [BN.prototype.toString()]: the decimal numeral without leading zeros. *)
Definition BN_toString (n : N) : string :=
  DecimalString.NilZero.string_of_uint (N.to_uint n).

(** [BN.prototype.toNumber()] on a count: [BN] asserts that the value
    fits the 53 bits a [number] holds exactly. *)
Definition BN_toNumber (n : N) : result nat :=
  if (n <? 9007199254740992)%N then Ok (N.to_nat n)
  else Err (AssertionError "Number can only safely store up to 53 bits").

(** The largest length of a JavaScript array, [2^32 - 1]. *)
Definition max_array_length : N := 4294967295.

(** The lists that are JavaScript arrays. *)
Definition js_array {A : Type} (l : list A) : Prop :=
  (N.of_nat (List.length l) <= max_array_length)%N.

Definition isHex (s : string) : bool := String.prefix "0x" s.

Definition removeHexPrefix (s : string) : string :=
  String.substring 2 (String.length s - 2) s.

Definition parse_decimal (s : string) : result N :=
  match DecimalString.NilZero.uint_of_string s with
  | Some d => Ok (N.of_uint d)
  | None => Err ParseError
  end.

(** The value of one hexadecimal digit, in either case. *)
Definition hex_digit (c : ascii) : option N :=
  let n := N_of_ascii c in
  if (48 <=? n)%N && (n <=? 57)%N then Some (n - 48)%N
  else if (97 <=? n)%N && (n <=? 102)%N then Some (n - 87)%N
  else if (65 <=? n)%N && (n <=? 70)%N then Some (n - 55)%N
  else None.

Fixpoint hex_digits (acc : N) (s : string) : option N :=
  match s with
  | EmptyString => Some acc
  | String c tl =>
      match hex_digit c with
      | Some d => hex_digits (16 * acc + d)%N tl
      | None => None
      end
  end.

Definition parse_hexadecimal (s : string) : result N :=
  match s with
  | EmptyString => Err ParseError
  | _ =>
      match hex_digits 0%N s with
      | Some n => Ok n
      | None => Err ParseError
      end
  end.

(** Modelled from the spec: [toBN] of [utils/number], which [contract.ts]
    imports and which is not part of the sources at hand.  It accepts
    decimal numerals, [0x]-prefixed hexadecimal numerals and values that are
    numeric already, and fails with a parse error on every other input
    ([undefined], arrays, objects and functions included). *)
Definition toBN (v : value) : result N :=
  match v with
  | VStr s =>
      if isHex s then parse_hexadecimal (removeHexPrefix s)
      else parse_decimal s
  | VNum n => Ok n
  | VUndef | VArr _ | VObj _ | VFun _ => Err ParseError
  end.

(** [toBN(v).toString()] *)
Definition normalize (v : value) : result string :=
  n <- toBN v ;; Ok (BN_toString n).

(** [function parseFelt(candidate: string): BN]: every exception of [toBN]
    is rethrown as [Error('Couldnt parse felt')]. *)
Definition parseFelt (candidate : value) : result N :=
  match toBN candidate with
  | Ok n => Ok n
  | Err _ => Err (AssertionError "Couldnt parse felt")
  end.

(** [function isFelt(candidate: string): boolean] *)
Definition isFelt (candidate : value) : bool :=
  match parseFelt candidate with
  | Ok _ => true
  | Err _ => false
  end.

(** ** The encoder *)

(** [Object.entries(o)] *)
Definition Object_entries {A : Type} (o : dict A) : list (string * A) := o.

(** The members of a struct-tagged value that reach the wire:
    [Object.entries(value).filter(([k]) => k !== 'type')]. *)
Definition wire_members (o : dict value) : dict value :=
  filter (fun kv => negb (String.eqb (fst kv) "type")) (Object_entries o).

(** The callback of [flatMap] in [compileCalldata]. *)
Definition compileValue (v : value) : result (list string) :=
  match v with
  | VArr l =>
      len <- normalize (VNum (N.of_nat (List.length l))) ;;
      elems <- mapM normalize l ;;
      Ok (len :: elems)
  | VObj o =>
      if has_key "type" o then
        mapM (fun kv => normalize (snd kv)) (wire_members o)
      else
        s <- normalize v ;; Ok [s]
  | _ =>
      s <- normalize v ;; Ok [s]
  end.

(** [Object.values(args)] *)
Definition Object_values {A : Type} (o : dict A) : list A := map snd o.

(** [export function compileCalldata(args: Args): Calldata] *)
Definition compileCalldata (args : Args) : result Calldata :=
  flatMapM compileValue (Object_values args).

(** ** ABI descriptions ([types.ts]) *)

(** [type AbiEntry = { name: string; type: 'felt' | 'felt*' | string }] *)
Record AbiEntry : Type := mkAbiEntry {
  name : string;
  type : string
}.

(** [type FunctionAbi]; its [type] is ['function']. *)
Record FunctionAbi : Type := mkFunctionAbi {
  fn_name : string;
  inputs : list AbiEntry;
  outputs : list AbiEntry;
  stateMutability : option string
}.

(** [type StructAbi]; its [type] is ['struct'].  The [offset] annotation of
    a member is never read by the codec and is left out. *)
Record StructAbi : Type := mkStructAbi {
  st_name : string;
  members : list AbiEntry;
  size : N
}.

(** [type Abi = FunctionAbi | StructAbi] *)
Inductive Abi : Type :=
| AbiFunction (f : FunctionAbi)
| AbiStruct (s : StructAbi).

Definition abi_type (a : Abi) : string :=
  match a with
  | AbiFunction _ => "function"
  | AbiStruct _ => "struct"
  end.

Definition abi_name (a : Abi) : string :=
  match a with
  | AbiFunction f => fn_name f
  | AbiStruct s => st_name s
  end.

(** ** The contract handle *)

(** [class Contract]; the provider is an external collaborator and is not
    part of the codec. *)
Record Contract : Type := mkContract {
  connectedTo : option string;
  abi : list Abi;
  structs : dict StructAbi
}.

(** [abi.filter((abiEntry) => abiEntry.type === 'struct')] *)
Fixpoint struct_entries (l : list Abi) : list StructAbi :=
  match l with
  | [] => []
  | AbiStruct s :: tl => s :: struct_entries tl
  | AbiFunction _ :: tl => struct_entries tl
  end.

(** The registry built by the constructor:
    [.reduce((acc, abiEntry) => ({ ...acc, [abiEntry.name]: abiEntry }), {})] *)
Definition build_structs (l : list Abi) : dict StructAbi :=
  fold_left (fun acc abiEntry => dict_set (st_name abiEntry) abiEntry acc)
            (struct_entries l) [].

(** [constructor(abi, address = null, provider = defaultProvider)] *)
Definition new_Contract (abi0 : list Abi) (address : option string) : Contract :=
  {| connectedTo := address; abi := abi0; structs := build_structs abi0 |}.

(** [public connect(address: string): Contract] *)
Definition connect (this : Contract) (address : string) : Contract :=
  {| connectedTo := Some address; abi := abi this; structs := structs this |}.

(** ** The validator *)

Inductive CallType : Type := INVOKE | CALL.

Definition isView (f : FunctionAbi) : bool :=
  match stateMutability f with
  | Some m => String.eqb m "view"
  | None => false
  end.

(** The callback of the first [filter] in [validateMethodAndArgs]. *)
Definition callable (ty : CallType) (a : Abi) : bool :=
  match a with
  | AbiStruct _ => false
  | AbiFunction f =>
      match ty with
      | INVOKE => negb (isView f)
      | CALL => isView f
      end
  end.

Definition invokeableFunctionNames (this : Contract) (ty : CallType)
  : list string :=
  map abi_name (filter (callable ty) (abi this)).

(** [names.includes(method)] *)
Definition includes (names : list string) (method : string) : bool :=
  existsb (String.eqb method) names.

Definition not_found_message (ty : CallType) : string :=
  (match ty with INVOKE => "invokeable" | CALL => "viewable" end)
    ++ " method not found in abi".

(** [this.abi.find((abi) => abi.name === method && abi.type === 'function')] *)
Definition find_function (this : Contract) (method : string) : option Abi :=
  find (fun a => String.eqb (abi_name a) method
                 && String.eqb (abi_type a) "function") (abi this).

(** The check of one element of a [felt*] argument. *)
Definition validateElement (input : AbiEntry) (felt : value) (i : nat)
  : result unit :=
  let at_i := "arg " ++ name input ++ "[" ++ BN_toString (N.of_nat i) ++ "]" in
  assert (is_string felt)
    (at_i ++ " should be a felt (string) as part of a felt* (string[])") ;;;
  assert (isFelt felt)
    (at_i ++
     " should be decimal or hexadecimal as part of a felt* (string[])").

(** The callback of [methodAbi.inputs.forEach]. *)
Definition validateInput (args : Args) (input : AbiEntry) : result unit :=
  let arg := prop (name input) args in
  if is_undefined arg then Ok tt
  else if String.eqb (type input) "felt" then
    assert (is_string arg)
      ("arg " ++ name input ++ " should be a felt (string)") ;;;
    assert (isFelt arg)
      ("arg " ++ name input ++ " should be decimal or hexadecimal")
  else if is_object arg && has_property "type" arg then
    assert (strict_eq_string (get_property "type" arg) "struct")
      ("arg " ++ name input ++ " should be a struct")
  else
    assert (isArray arg)
      ("arg " ++ name input ++ " should be a felt* (string[])") ;;;
    forEachM (validateElement input) (elements arg).

(** [private validateMethodAndArgs(type, method, args = {})] *)
Definition validateMethodAndArgs (this : Contract) (ty : CallType)
  (method : string) (args : Args) : result unit :=
  assert (includes (invokeableFunctionNames this ty) method)
    (not_found_message ty) ;;;
  match find_function this method with
  | Some (AbiFunction methodAbi) =>
      forEachM (fun input _ => validateInput args input) (inputs methodAbi)
  | _ => Err TypeError
  end.

(** ** The decoder *)

(** The argument of [parseResponseField]: [AbiEntry | FunctionAbi], and at
    run time whatever entry [parseResponse] found under the method name. *)
Inductive element : Type :=
| Field (e : AbiEntry)
| Entry (a : Abi).

Definition element_type (el : element) : string :=
  match el with
  | Field e => type e
  | Entry a => abi_type a
  end.

Definition element_name (el : element) : string :=
  match el with
  | Field e => name e
  | Entry a => abi_name a
  end.

(** The response iterator is the list of the elements not yet consumed.
    [next] is [responseIterator.next().value]: past the end the iterator
    yields [undefined] and stays exhausted. *)
Definition cursor : Type := list value.

Definition next (it : cursor) : value * cursor :=
  match it with
  | [] => (VUndef, [])
  | v :: tl => (v, tl)
  end.

(** [while (arr.length < n) { arr.push(responseIterator.next().value) }],
    by recursion on the number [n - arr.length] of rounds left, for a count
    that an array can hold. *)
Fixpoint collect (rounds : nat) (arr : list value) (it : cursor)
  : list value * cursor :=
  match rounds with
  | O => (arr, it)
  | S k => let (v, it') := next it in collect k (arr ++ [v])%list it'
  end.

(** [currentAcc?.[key]] *)
Definition optional_prop (key : string) (currentAcc : option (dict value))
  : value :=
  match currentAcc with
  | Some acc => prop key acc
  | None => VUndef
  end.

(** The entries [parseResponseField] recurses over.  [element.type in
    this.structs] also holds for a name the registry merely inherits; what
    is then read from the registry has no [members], and [reduce] is called
    on [undefined]. *)
Definition member_entries (this : Contract) (el : element)
  : result (list AbiEntry) :=
  match dict_get (element_type el) (structs this) with
  | Some s => Ok (members s)
  | None =>
      if is_inherited (element_type el) then Err TypeError
      else
        match el with
        | Entry (AbiFunction f) => Ok (outputs f)
        | _ => Ok []
        end
  end.

(** [private parseResponseField(element, responseIterator, currentAcc?)].
    The result pairs the returned value with the iterator state it leaves.
    A struct type may mention itself, so the recursion is bounded by the
    depth [fuel] of the call stack.  An array that would outgrow
    [max_array_length] makes [push] throw. *)
Fixpoint parseResponseField (fuel : nat) (this : Contract) (el : element)
  (it : cursor) (currentAcc : option (dict value)) : result (value * cursor) :=
  match fuel with
  | O => Err StackExhausted
  | S fuel' =>
      if String.eqb (element_type el) "felt" then
        Ok (next it)
      else if String.eqb (element_type el) "felt*" then
        let lengthFieldInHex :=
          optional_prop (element_name el ++ "_len") currentAcc in
        n <- toBN lengthFieldInHex ;;
        lengthFieldInNumber <- BN_toNumber n ;;
        if (max_array_length <? n)%N then Err RangeError
        else
          let (arr, it') := collect lengthFieldInNumber [] it in
          Ok (VArr arr, it')
      else
        entries <- member_entries this el ;;
        r <- reduceM
               (fun (st : dict value * cursor) (member : AbiEntry) =>
                  let (acc, it0) := st in
                  r <- parseResponseField fuel' this (Field member) it0
                         (Some acc) ;;
                  Ok (dict_set (name member) (fst r) acc, snd r))
               entries ([], it) ;;
        Ok (VObj (fst r), snd r)
  end.

(** [response.flat()] *)
Definition flat (response : list value) : list value :=
  flat_map (fun v => match v with VArr l => l | _ => [v] end) response.

(** [private parseResponse(method: string, response: string[]): Args] *)
Definition parseResponse (fuel : nat) (this : Contract) (method : string)
  (response : list value) : result value :=
  let responseIterator := flat response in
  match find (fun a => String.eqb (abi_name a) method) (abi this) with
  | Some methodAbi =>
      r <- parseResponseField fuel this (Entry methodAbi)
             responseIterator None ;;
      Ok (fst r)
  | None => Err TypeError
  end.

(** The callback of [entries.reduce] in [parseResponseField]: decode one
    member with the accumulator built so far, then extend the accumulator. *)
Definition decodeMember (fuel : nat) (this : Contract)
  (st : dict value * cursor) (member : AbiEntry)
  : result (dict value * cursor) :=
  let (acc, it0) := st in
  r <- parseResponseField fuel this (Field member) it0 (Some acc) ;;
  Ok (dict_set (name member) (fst r) acc, snd r).


(** Whether a name ends in [_len], as the name of a length field does. *)
Fixpoint ends_with_len (s : string) : bool :=
  match s with
  | EmptyString => false
  | String _ tl => String.eqb s "_len" || ends_with_len tl
  end.

(** ** Reference behaviour named by the specification *)

(** The specification's reading of a struct-tagged argument: one normalized
    value per member of the struct's ABI declaration, in declaration order,
    each read from the value by the member's name. *)
Definition encode_struct_declared_order (s : StructAbi) (o : dict value)
  : result (list string) :=
  mapM (fun m => normalize (prop (name m) o)) (members s).

(** The network that merely echoes the calldata back as the response. *)
Definition echo (calldata : Calldata) : list value := map VStr calldata.

(** The round trip of the specification's testable property: encoding
    succeeds, and decoding the echoed calldata with the function's own ABI
    entry gives back the arguments. *)
Definition roundtrip (fuel : nat) (this : Contract) (f : FunctionAbi)
  (args : Args) : Prop :=
  exists calldata,
    compileCalldata args = Ok calldata
    /\ parseResponse fuel this (fn_name f) (echo calldata) = Ok (VObj args).

(** The premises of that property: [f] is the entry the ABI resolves under
    its name, its outputs have the shape of its inputs, and [args] supplies
    every input, in declaration order, with a value the validator accepts. *)
Definition well_typed_call (this : Contract) (f : FunctionAbi) (args : Args)
  : Prop :=
  find (fun a => String.eqb (abi_name a) (fn_name f)) (abi this)
  = Some (AbiFunction f)
  /\ outputs f = inputs f
  /\ map fst args = map name (inputs f)
  /\ validateMethodAndArgs this CALL (fn_name f) args = Ok tt.

(** A felt string that normalization leaves as it is: a decimal numeral
    without leading zeros. *)
Definition canonical (v : value) : bool :=
  match v with
  | VStr s =>
      match normalize v with
      | Ok s' => String.eqb s' s
      | Err _ => false
      end
  | _ => false
  end.

(** The struct entry registered last under a name: the last entry of kind
    ['struct'] in the ABI list that carries it. *)
Definition last_struct_named (n : string) (l : list Abi) : option StructAbi :=
  find (fun s => String.eqb (st_name s) n) (List.rev (struct_entries l)).

(** ** Sample ABIs *)

Module Sample.

Definition felt (n : string) : AbiEntry := mkAbiEntry n "felt".

Definition Point : StructAbi :=
  mkStructAbi "Point" [felt "x"; felt "y"] 2.

(** A second declaration under the name of [Point]. *)
Definition Point3 : StructAbi :=
  mkStructAbi "Point" [felt "x"; felt "y"; felt "z"] 3.


Definition balance_of : FunctionAbi :=
  mkFunctionAbi "balance_of" [felt "user"] [felt "res"] (Some "view").

Definition mint : FunctionAbi :=
  mkFunctionAbi "mint" [felt "recipient"; felt "amount"] [] None.

Definition erc20 : Contract :=
  new_Contract [AbiFunction balance_of; AbiFunction mint] None.



(** A view function that returns an array behind its length field. *)
Definition get_data : FunctionAbi :=
  mkFunctionAbi "get_data" []
    [felt "data_len"; mkAbiEntry "data" "felt*"; felt "tail"] (Some "view").

(** The same array without the length field in front of it. *)
Definition get_raw : FunctionAbi :=
  mkFunctionAbi "get_raw" [] [mkAbiEntry "data" "felt*"] (Some "view").

Definition store : Contract :=
  new_Contract [AbiFunction get_data; AbiFunction get_raw] None.

(** Three functions that return what they take. *)
Definition echo_felt : FunctionAbi :=
  mkFunctionAbi "echo_felt" [felt "user"] [felt "user"] (Some "view").

Definition echo_array : FunctionAbi :=
  mkFunctionAbi "echo_array"
    [felt "data_len"; mkAbiEntry "data" "felt*"]
    [felt "data_len"; mkAbiEntry "data" "felt*"] (Some "view").

Definition echo_point : FunctionAbi :=
  mkFunctionAbi "echo_point"
    [mkAbiEntry "p" "Point"] [mkAbiEntry "p" "Point"] (Some "view").

(** An ABI that declares a struct under the name ['function']. *)
Definition shadowed : Contract :=
  new_Contract
    [AbiStruct (mkStructAbi "function" [felt "a"] 1); AbiFunction echo_felt]
    None.

Definition mirror : Contract :=
  new_Contract
    [AbiStruct Point; AbiFunction echo_felt; AbiFunction echo_array;
     AbiFunction echo_point] None.

End Sample.

(** ** The facade: [invoke] and [call] *)

(** The object [invoke] hands to [provider.addTransaction]. *)
Record Transaction : Type := mkTransaction {
  tx_type : string;
  tx_contract_address : string;
  tx_signature : option (list string);
  tx_calldata : Calldata;
  tx_entry_point_selector : string
}.

(** The object [call] hands to [provider.callContract]. *)
Record CallRequest : Type := mkCallRequest {
  contract_address : string;
  calldata : Calldata;
  entry_point_selector : string
}.

Definition not_connected_message : string :=
  "contract isnt connected to an address".

Section Facade.

(** [getSelectorFromName] of [utils/stark] and the two provider methods
    are collaborators outside [contract.ts]; a rejected promise is an
    exception. *)
Variable getSelectorFromName : string -> string.
Variable Receipt : Type.
Variable addTransaction : Transaction -> result Receipt.
Variable callContract : CallRequest -> result (list value).

(** [public invoke(method: string, args: Args = {}, signature?: Signature)] *)
Definition invoke (this : Contract) (method : string) (args : Args)
  (signature : option (list string)) : result Receipt :=
  match connectedTo this with
  | None => Err (AssertionError not_connected_message)
  | Some address =>
      validateMethodAndArgs this INVOKE method args ;;;
      let entrypointSelector := getSelectorFromName method in
      calldata0 <- compileCalldata args ;;
      addTransaction
        {| tx_type := "INVOKE_FUNCTION";
           tx_contract_address := address;
           tx_signature := signature;
           tx_calldata := calldata0;
           tx_entry_point_selector := entrypointSelector |}
  end.

(** [public async call(method: string, args: Args = {})]; [x.result] is
    what [callContract] yields here. *)
Definition call (fuel : nat) (this : Contract) (method : string) (args : Args)
  : result value :=
  match connectedTo this with
  | None => Err (AssertionError not_connected_message)
  | Some address =>
      validateMethodAndArgs this CALL method args ;;;
      let entrypointSelector := getSelectorFromName method in
      calldata0 <- compileCalldata args ;;
      x <- callContract
             {| contract_address := address;
                calldata := calldata0;
                entry_point_selector := entrypointSelector |} ;;
      parseResponse fuel this method x
  end.

End Facade.

(** ** Measures and criteria used in the statements *)

(** The number of calldata elements one argument value contributes. *)
Definition wire_size (v : value) : nat :=
  match v with
  | VArr l => S (List.length l)
  | VObj o => if has_key "type" o then List.length (wire_members o) else 1
  | _ => 1
  end.

(** A value the validator takes for a felt: a string that [toBN] parses. *)
Definition acceptable_felt (v : value) : bool :=
  is_string v && is_ok (toBN v).

(** What the validator asks of the argument of one declared input. *)
Definition accepts (args : Args) (input : AbiEntry) : bool :=
  let arg := prop (name input) args in
  is_undefined arg
  || (if String.eqb (type input) "felt" then acceptable_felt arg
      else if is_object arg && has_property "type" arg then
        strict_eq_string (get_property "type" arg) "struct"
      else isArray arg && forallb acceptable_felt (elements arg)).

(** The names of the functions an ABI declares. *)
Definition function_names (l : list Abi) : list string :=
  flat_map (fun a => match a with
                     | AbiFunction f => [fn_name f]
                     | AbiStruct _ => []
                     end) l.

(** A response nested at most one level, as the transport returns it:
    strings, or arrays of strings. *)
Definition shallow (response : list value) : bool :=
  forallb (fun v => match v with
                    | VArr l => forallb (fun w => negb (isArray w)) l
                    | _ => true
                    end) response.

(** ** More sample data *)

Module Demo.

(** A struct whose first member has the struct's own type. *)
Definition Chain : StructAbi :=
  mkStructAbi "Chain" [mkAbiEntry "next" "Chain"; Sample.felt "value"] 2.

Definition get_point : FunctionAbi :=
  mkFunctionAbi "get_point" []
    [mkAbiEntry "p" "Point"; Sample.felt "tail"] (Some "view").

Definition get_chain : FunctionAbi :=
  mkFunctionAbi "get_chain" [] [mkAbiEntry "c" "Chain"] (Some "view").

Definition get_ghost : FunctionAbi :=
  mkFunctionAbi "get_ghost" []
    [mkAbiEntry "g" "Ghost"; Sample.felt "tail"] (Some "view").

Definition shapes : Contract :=
  new_Contract
    [AbiStruct Sample.Point; AbiStruct Chain; AbiFunction get_point;
     AbiFunction get_chain; AbiFunction get_ghost;
     AbiFunction Sample.echo_array; AbiFunction Sample.echo_point;
     AbiFunction Sample.balance_of; AbiFunction Sample.mint]
    (Some "0xabc").

(** A transport that answers every read with the calldata it was sent and
    acknowledges every transaction with its calldata. *)
Definition echo_call (r : CallRequest) : result (list value) :=
  Ok (echo (calldata r)).

Definition echo_transaction (t : Transaction) : result Calldata :=
  Ok (tx_calldata t).

End Demo.

(** * Properties *)

(** Refutes a round trip for every recursion bound: runs the encoder, then
    the decoder at each bound up to the depth the ABI needs. *)
Ltac refute_roundtrip :=
  let calldata := fresh "calldata" in
  let Hc := fresh "Hc" in
  let Hp := fresh "Hp" in
  intros fuel [calldata [Hc Hp]];
  vm_compute in Hc; injection Hc as <-;
  destruct fuel as [|[|[|fuel]]]; cbn in Hp; discriminate Hp.

(** ** The error monad and the array combinators *)

Lemma bind_ok {A B : Type} (m : result A) (k : A -> result B) (b : B) :
  bind m k = Ok b -> exists a, m = Ok a /\ k a = Ok b.
Proof.
  destruct m as [a|e]; simpl; intros H.
  - exists a. split; [reflexivity | exact H].
  - discriminate H.
Qed.

Lemma flatMapM_app {A B : Type} (f : A -> result (list B)) (l1 l2 : list A)
  (r1 r2 : list B) :
  flatMapM f l1 = Ok r1 -> flatMapM f l2 = Ok r2 ->
  flatMapM f (l1 ++ l2)%list = Ok (r1 ++ r2)%list.
Proof.
  revert r1. induction l1 as [|x tl IH]; simpl; intros r1 H1 H2.
  - injection H1 as <-. exact H2.
  - destruct (f x) as [ys|e]; simpl in *; [|discriminate].
    destruct (flatMapM f tl) as [zs|e]; simpl in *; [|discriminate].
    injection H1 as <-.
    rewrite (IH zs eq_refl H2). simpl. now rewrite app_assoc.
Qed.


(** ** Objects *)

Lemma dict_get_set_same {A : Type} (k : string) (v : A) (o : dict A) :
  dict_get k (dict_set k v o) = Some v.
Proof.
  induction o as [|[k' v'] tl IH]; simpl.
  - now rewrite String.eqb_refl.
  - destruct (String.eqb k' k) eqn:E; simpl; rewrite E; [reflexivity | exact IH].
Qed.

Lemma dict_get_set_other {A : Type} (k k0 : string) (v : A) (o : dict A) :
  k0 <> k -> dict_get k (dict_set k0 v o) = dict_get k o.
Proof.
  intros Hne. induction o as [|[k' v'] tl IH]; simpl.
  - destruct (String.eqb_spec k0 k); [contradiction | reflexivity].
  - destruct (String.eqb_spec k' k0) as [->|Hk]; simpl.
    + destruct (String.eqb_spec k0 k); [contradiction | reflexivity].
    + destruct (String.eqb k' k); [reflexivity | exact IH].
Qed.

Lemma dict_set_fresh {A : Type} (k : string) (v : A) (o : dict A) :
  ~ In k (map fst o) -> dict_set k v o = (o ++ [(k, v)])%list.
Proof.
  induction o as [|[k' v'] tl IH]; simpl; intros Hnin.
  - reflexivity.
  - destruct (String.eqb_spec k' k) as [->|Hk].
    + exfalso. apply Hnin. now left.
    + f_equal. apply IH. intros Hin. apply Hnin. now right.
Qed.

Lemma dict_get_absent {A : Type} (k : string) (o : dict A) :
  ~ In k (map fst o) -> dict_get k o = None.
Proof.
  induction o as [|[k' v'] tl IH]; simpl; intros Hnin.
  - reflexivity.
  - destruct (String.eqb_spec k' k) as [->|Hk].
    + exfalso. apply Hnin. now left.
    + apply IH. intros Hin. apply Hnin. now right.
Qed.

(** ** The encoder *)

Lemma compileCalldata_app (args1 args2 : Args) (c1 c2 : Calldata) :
  compileCalldata args1 = Ok c1 -> compileCalldata args2 = Ok c2 ->
  compileCalldata (args1 ++ args2)%list = Ok (c1 ++ c2)%list.
Proof.
  unfold compileCalldata, Object_values. rewrite map_app.
  apply flatMapM_app.
Qed.

Lemma compileCalldata_insert (pre post : Args) (k : string) (v : value)
  (c1 c c2 : Calldata) :
  compileCalldata pre = Ok c1 -> compileValue v = Ok c ->
  compileCalldata post = Ok c2 ->
  compileCalldata (pre ++ (k, v) :: post)%list = Ok (c1 ++ c ++ c2)%list.
Proof.
  intros H1 Hv H2. apply compileCalldata_app; [exact H1|].
  unfold compileCalldata, Object_values in *. simpl.
  rewrite Hv. simpl. rewrite H2. reflexivity.
Qed.

Lemma compileValue_array (l : list value) (ns : list string) :
  mapM normalize l = Ok ns ->
  compileValue (VArr l) = Ok (BN_toString (N.of_nat (List.length l)) :: ns).
Proof.
  intros H. unfold compileValue. rewrite H. reflexivity.
Qed.

Lemma compileValue_struct (o : dict value) (ns : list string) :
  has_key "type" o = true ->
  mapM normalize (Object_values (wire_members o)) = Ok ns ->
  compileValue (VObj o) = Ok ns.
Proof.
  intros Htag H. unfold compileValue. rewrite Htag. rewrite <- H.
  unfold Object_values. generalize (wire_members o).
  intros l. induction l as [|kv tl IH]; simpl; [reflexivity|].
  now rewrite IH.
Qed.

(** C2.  A sequence argument contributes its length first and then its
    normalized elements, in order, between the contributions of the
    arguments before and after it; the empty sequence contributes the single
    element ["0"]; [{ data: [] }] encodes to [["0"]] and
    [{ data: ["1","2","3"] }] to [["3","1","2","3"]]. *)
Theorem compileCalldata_length_prefix
  (pre post : Args) (k : string) (l : list value) (c1 ns c2 : Calldata)
  (Hpre : compileCalldata pre = Ok c1)
  (Helems : mapM normalize l = Ok ns)
  (Hpost : compileCalldata post = Ok c2) :
  compileCalldata (pre ++ (k, VArr l) :: post)%list
  = Ok (c1 ++ (BN_toString (N.of_nat (List.length l)) :: ns) ++ c2)%list
  /\ compileCalldata (pre ++ (k, VArr []) :: post)%list = Ok (c1 ++ "0" :: c2)%list
  /\ compileCalldata [("data", VArr [])] = Ok ["0"]
  /\ compileCalldata [("data", VArr [VStr "1"; VStr "2"; VStr "3"])]
     = Ok ["3"; "1"; "2"; "3"].
Proof.
  split; [|split; [|split]].
  - apply compileCalldata_insert; auto using compileValue_array.
  - apply compileCalldata_insert with (c := ["0"]); auto.
  - reflexivity.
  - reflexivity.
Qed.

Lemma compileCalldata_length_prefix_witness :
  compileCalldata [("to", VStr "0x10")] = Ok ["16"]
  /\ mapM normalize [VStr "7"; VStr "0x8"] = Ok ["7"; "8"]
  /\ compileCalldata [("salt", VStr "9")] = Ok ["9"]
  /\ compileCalldata
       [("to", VStr "0x10"); ("data", VArr [VStr "7"; VStr "0x8"]);
        ("salt", VStr "9")]
     = Ok ["16"; "2"; "7"; "8"; "9"].
Proof.
  split; [reflexivity|]. split; [reflexivity|]. split; [reflexivity|].
  exact (proj1 (@compileCalldata_length_prefix
                  [("to", VStr "0x10")] [("salt", VStr "9")] "data"
                  [VStr "7"; VStr "0x8"] ["16"] ["7"; "8"] ["9"]
                  eq_refl eq_refl eq_refl)).
Defined.

Lemma prop_in (o : dict value) (k : string) (v : value) :
  NoDup (map fst o) -> In (k, v) o -> prop k o = v.
Proof.
  unfold prop. induction o as [|[k' v'] tl IH]; simpl; intros Hnd Hin.
  - contradiction.
  - inversion Hnd as [|? ? Hnin Hnd']; subst.
    destruct Hin as [Heq|Hin].
    + injection Heq as -> ->. now rewrite String.eqb_refl.
    + destruct (String.eqb_spec k' k) as [->|Hk].
      * exfalso. apply Hnin. apply (in_map fst) in Hin. exact Hin.
      * apply IH; assumption.
Qed.

Lemma declared_order_agrees (o l : dict value) (ms : list AbiEntry) :
  NoDup (map fst o) -> incl l o -> map fst l = map name ms ->
  mapM (fun m => normalize (prop (name m) o)) ms
  = mapM normalize (Object_values l).
Proof.
  intros Hnd. revert ms. induction l as [|[k v] tl IH]; intros ms Hincl Hkeys.
  - destruct ms; [reflexivity | discriminate].
  - destruct ms as [|m ms]; [discriminate|].
    simpl in Hkeys. injection Hkeys as Hk Hkeys. simpl.
    rewrite <- Hk. rewrite (@prop_in o k v Hnd (Hincl _ (or_introl eq_refl))).
    rewrite (IH ms); [reflexivity | | exact Hkeys].
    intros kv Hin. apply Hincl. now right.
Qed.

(** C5, as the code has it.  A struct-tagged argument contributes the
    normalized value of every member except the type tag, in the order in
    which the value itself lists its members; the tag contributes nothing.
    This is the declared member order of the struct whenever the value lists
    its members in that order. *)
Theorem compileCalldata_struct_members
  (pre post : Args) (k : string) (o : dict value) (s : StructAbi)
  (c1 ns c2 : Calldata)
  (Hpre : compileCalldata pre = Ok c1)
  (Htag : has_key "type" o = true)
  (Hmembers : mapM normalize (Object_values (wire_members o)) = Ok ns)
  (Hpost : compileCalldata post = Ok c2) :
  compileCalldata (pre ++ (k, VObj o) :: post)%list = Ok (c1 ++ ns ++ c2)%list
  /\ (NoDup (map fst o) ->
      map fst (wire_members o) = map name (members s) ->
      encode_struct_declared_order s o = Ok ns).
Proof.
  split.
  - apply compileCalldata_insert; auto using compileValue_struct.
  - intros Hnd Hkeys. unfold encode_struct_declared_order.
    rewrite <- Hmembers. apply declared_order_agrees; auto.
    unfold wire_members. intros kv Hin. apply filter_In in Hin. tauto.
Qed.

Lemma compileCalldata_struct_members_witness :
  compileCalldata
    [("to", VStr "0x10");
     ("p", VObj [("type", VStr "struct"); ("y", VStr "2"); ("x", VStr "1")]);
     ("salt", VStr "9")]
  = Ok ["16"; "2"; "1"; "9"].
Proof.
  exact (proj1 (@compileCalldata_struct_members
                  [("to", VStr "0x10")] [("salt", VStr "9")] "p"
                  [("type", VStr "struct"); ("y", VStr "2"); ("x", VStr "1")]
                  Sample.Point ["16"] ["2"; "1"] ["9"]
                  eq_refl eq_refl eq_refl eq_refl)).
Defined.

(** C5 as the specification words it fails: a value that lists [y] before
    [x] is encoded in that order, not in the order [x], [y] in which the
    struct [Point] declares its members. *)
Lemma compileCalldata_not_declared_order :
  let o := [("type", VStr "struct"); ("y", VStr "2"); ("x", VStr "1")] in
  compileCalldata [("p", VObj o)] = Ok ["2"; "1"]
  /\ encode_struct_declared_order Sample.Point o = Ok ["1"; "2"]
  /\ compileCalldata [("p", VObj o)]
     <> encode_struct_declared_order Sample.Point o.
Proof.
  simpl. split; [reflexivity|]. split; [reflexivity|].
  vm_compute. discriminate.
Qed.

(** C9.  The encoder reads nothing but the values of its argument, in
    enumeration order: two mappings with the same value sequence encode
    alike whatever their keys, and a struct-tagged value is encoded from the
    members it happens to carry, so that neither a missing nor an additional
    member is an error. *)
Theorem compileCalldata_reads_values_only
  (args1 args2 : Args) (k : string) (o : dict value) (ns : Calldata)
  (Hvalues : Object_values args1 = Object_values args2)
  (Htag : has_key "type" o = true)
  (Hmembers : mapM normalize (Object_values (wire_members o)) = Ok ns) :
  compileCalldata args1 = compileCalldata args2
  /\ compileCalldata [(k, VObj o)] = Ok ns.
Proof.
  split.
  - unfold compileCalldata. now rewrite Hvalues.
  - unfold compileCalldata. change (Object_values [(k, VObj o)]) with [VObj o].
    cbn [flatMapM]. rewrite (compileValue_struct o Htag Hmembers).
    cbn [bind]. now rewrite app_nil_r.
Qed.

Lemma compileCalldata_reads_values_only_witness :
  (compileCalldata [("user", VStr "0x10"); ("amount", VStr "5")]
   = compileCalldata [("amount", VStr "0x10"); ("nobody", VStr "5")]
   /\ compileCalldata [("p", VObj [("type", VStr "struct"); ("x", VStr "1")])]
      = Ok ["1"])
  /\ compileCalldata
       [("p", VObj [("type", VStr "struct"); ("x", VStr "1"); ("y", VStr "2");
                    ("w", VStr "3")])]
     = Ok ["1"; "2"; "3"].
Proof.
  split.
  - exact (@compileCalldata_reads_values_only
             [("user", VStr "0x10"); ("amount", VStr "5")]
             [("amount", VStr "0x10"); ("nobody", VStr "5")]
             "p" [("type", VStr "struct"); ("x", VStr "1")] ["1"]
             eq_refl eq_refl eq_refl).
  - exact (proj2 (@compileCalldata_reads_values_only
             [] [] "p"
             [("type", VStr "struct"); ("x", VStr "1"); ("y", VStr "2");
              ("w", VStr "3")] ["1"; "2"; "3"]
             eq_refl eq_refl eq_refl)).
Defined.

(** ** The struct registry *)

Lemma find_app {A : Type} (f : A -> bool) (l1 l2 : list A) :
  find f (l1 ++ l2)%list
  = match find f l1 with
    | Some x => Some x
    | None => find f l2
    end.
Proof.
  induction l1 as [|x tl IH]; simpl; [reflexivity|].
  destruct (f x); [reflexivity | exact IH].
Qed.

Lemma registry_fold (n : string) (l : list StructAbi) (acc : dict StructAbi) :
  dict_get n
    (fold_left (fun acc abiEntry => dict_set (st_name abiEntry) abiEntry acc)
               l acc)
  = match find (fun s => String.eqb (st_name s) n) (List.rev l) with
    | Some s => Some s
    | None => dict_get n acc
    end.
Proof.
  revert acc. induction l as [|s tl IH]; intros acc; simpl.
  - reflexivity.
  - rewrite IH, find_app. simpl.
    destruct (find (fun s0 => String.eqb (st_name s0) n) (List.rev tl));
      [reflexivity|].
    destruct (String.eqb_spec (st_name s) n) as [<-|Hne].
    + apply dict_get_set_same.
    + now apply dict_get_set_other.
Qed.

(** C8.  The registry built by the constructor maps every name to the struct
    entry that the ABI list carries last under that name: a later
    declaration silently replaces an earlier one, and the constructor
    rejects nothing. *)
Theorem structs_last_write_wins (abi0 : list Abi) (address : option string)
  (n : string) :
  dict_get n (structs (new_Contract abi0 address)) = last_struct_named n abi0
  /\ dict_get "Point"
       (structs (new_Contract
                   [AbiStruct Sample.Point; AbiStruct Sample.Point3] address))
     = Some Sample.Point3.
Proof.
  split; [|reflexivity].
  unfold new_Contract, build_structs, last_struct_named. simpl.
  rewrite registry_fold.
  now destruct (find _ _).
Qed.

(** ** The validator *)

Lemma includes_In (names : list string) (method : string) :
  includes names method = true <-> In method names.
Proof.
  unfold includes. rewrite existsb_exists. split.
  - intros [x [Hin Heq]]. apply String.eqb_eq in Heq. now subst.
  - intros Hin. exists method. split; [exact Hin | apply String.eqb_refl].
Qed.

Lemma invokeable_In (this : Contract) (ty : CallType) (method : string) :
  In method (invokeableFunctionNames this ty) <->
  exists f, In (AbiFunction f) (abi this) /\ fn_name f = method
            /\ callable ty (AbiFunction f) = true.
Proof.
  unfold invokeableFunctionNames. rewrite in_map_iff. split.
  - intros [a [Hname Hin]]. apply filter_In in Hin as [Hin Hcall].
    destruct a as [f|s]; [|discriminate]. exists f. auto.
  - intros [f [Hin [Hname Hcall]]]. exists (AbiFunction f).
    split; [exact Hname|]. apply filter_In. auto.
Qed.

(** C6.  A method is looked up among the ABI entries of kind ['function']
    whose mutability fits the call kind: when no function entry of that name
    fits (there is none, or each one is a view while the call is an
    invocation, or none is a view while the call is read-only), validation
    fails with the "method not found" assertion of that call kind. *)
Theorem validateMethodAndArgs_method_not_found
  (this : Contract) (ty : CallType) (method : string) (args : Args)
  (Hnone : forall f, In (AbiFunction f) (abi this) -> fn_name f = method ->
                     callable ty (AbiFunction f) = false) :
  validateMethodAndArgs this ty method args
  = Err (AssertionError (not_found_message ty)).
Proof.
  unfold validateMethodAndArgs.
  destruct (includes (invokeableFunctionNames this ty) method) eqn:Hinc.
  - apply includes_In, invokeable_In in Hinc as [f [Hin [Hname Hcall]]].
    rewrite (Hnone f Hin Hname) in Hcall. discriminate.
  - reflexivity.
Qed.

Lemma validateMethodAndArgs_method_not_found_witness :
  validateMethodAndArgs Sample.erc20 CALL "mint" [("amount", VStr "10")]
  = Err (AssertionError "viewable method not found in abi")
  /\ validateMethodAndArgs Sample.erc20 INVOKE "balance_of" []
     = Err (AssertionError "invokeable method not found in abi")
  /\ validateMethodAndArgs Sample.erc20 CALL "transfer" []
     = Err (AssertionError "viewable method not found in abi").
Proof.
  split; [|split];
    apply validateMethodAndArgs_method_not_found;
    intros f Hin Hname; simpl in Hin; destruct Hin as [Hf|[Hf|[]]];
    injection Hf as <-; solve [reflexivity | discriminate Hname].
Defined.


Lemma is_inherited_In (k : string) :
  is_inherited k = true <-> In k inherited_names.
Proof.
  unfold is_inherited. rewrite existsb_exists. split.
  - intros [x [Hin Heq]]. apply String.eqb_eq in Heq. now subst.
  - intros Hin. exists k. split; [exact Hin | apply String.eqb_refl].
Qed.

Lemma not_inherited (k : string) :
  ~ In k inherited_names -> is_inherited k = false.
Proof.
  intros Hown. destruct (is_inherited k) eqn:E; [|reflexivity].
  now apply is_inherited_In in E.
Qed.





(** ** The decoder *)

Lemma collect_spec (n : nat) (arr : list value) (it : cursor) :
  collect n arr it
  = ((arr ++ firstn n it ++ repeat VUndef (n - List.length it))%list,
     skipn n it).
Proof.
  revert arr it. induction n as [|k IH]; intros arr it.
  - simpl. now rewrite app_nil_r.
  - destruct it as [|v tl]; simpl; rewrite IH.
    + rewrite firstn_nil, skipn_nil, <- app_assoc. simpl.
      now rewrite Nat.sub_0_r.
    + now rewrite <- app_assoc.
Qed.

Lemma parseResponseField_array (fuel : nat) (this : Contract) (e : AbiEntry)
  (it : cursor) (currentAcc : option (dict value)) :
  type e = "felt*" ->
  parseResponseField (S fuel) this (Field e) it currentAcc
  = (n <- toBN (optional_prop (name e ++ "_len") currentAcc) ;;
     k <- BN_toNumber n ;;
     if (max_array_length <? n)%N then Err RangeError
     else Ok (VArr (firstn k it ++ repeat VUndef (k - List.length it))%list,
              skipn k it)).
Proof.
  intros Hty. cbn [parseResponseField element_type element_name].
  rewrite Hty. cbn [String.eqb Ascii.eqb Bool.eqb].
  destruct (toBN _) as [n|err]; cbn [bind]; [|reflexivity].
  destruct (BN_toNumber n) as [k|err]; cbn [bind]; [|reflexivity].
  destruct (max_array_length <? n)%N; [reflexivity|].
  now rewrite collect_spec.
Qed.

Lemma count_fits (n : N) :
  (n <= max_array_length)%N ->
  BN_toNumber n = Ok (N.to_nat n) /\ (max_array_length <? n)%N = false.
Proof.
  unfold BN_toNumber, max_array_length. intros Hn. split.
  - destruct (N.ltb_spec n 9007199254740992); [reflexivity | lia].
  - apply N.ltb_ge. exact Hn.
Qed.

Lemma member_entries_registered (this : Contract) (el : element)
  (s : StructAbi) :
  dict_get (element_type el) (structs this) = Some s ->
  member_entries this el = Ok (members s).
Proof.
  unfold member_entries. now intros ->.
Qed.

Lemma member_entries_function (this : Contract) (f : FunctionAbi) :
  dict_get "function" (structs this) = None ->
  member_entries this (Entry (AbiFunction f)) = Ok (outputs f).
Proof.
  unfold member_entries. cbn [element_type abi_type]. now intros ->.
Qed.

Lemma parseResponseField_members (fuel : nat) (this : Contract) (el : element)
  (it : cursor) (currentAcc : option (dict value)) :
  String.eqb (element_type el) "felt" = false ->
  String.eqb (element_type el) "felt*" = false ->
  parseResponseField (S fuel) this el it currentAcc
  = (entries <- member_entries this el ;;
     r <- reduceM (decodeMember fuel this) entries ([], it) ;;
     Ok (VObj (fst r), snd r)).
Proof.
  intros H1 H2. cbn [parseResponseField]. rewrite H1, H2. reflexivity.
Qed.

(** C3.  A field of type [felt*] reads the value its level's accumulator
    holds under [<name>_len], takes it as a count [n], and, the response (a
    JavaScript array) holding that many further elements, returns exactly
    the next [n] elements in order and leaves the cursor [n] positions
    further on; the members that follow it at the same level are decoded
    from there. *)
Theorem parseResponseField_felt_array
  (fuel : nat) (this : Contract) (e : AbiEntry) (rest : list AbiEntry)
  (it : cursor) (acc : dict value) (v : value) (n : N)
  (Htype : type e = "felt*")
  (Hlen : dict_get (name e ++ "_len") acc = Some v)
  (Hcount : toBN v = Ok n)
  (Hresponse : js_array it)
  (Henough : N.to_nat n <= List.length it) :
  parseResponseField (S fuel) this (Field e) it (Some acc)
  = Ok (VArr (firstn (N.to_nat n) it), skipn (N.to_nat n) it)
  /\ List.length (firstn (N.to_nat n) it) = N.to_nat n
  /\ reduceM (decodeMember (S fuel) this) (e :: rest) (acc, it)
     = reduceM (decodeMember (S fuel) this) rest
         (dict_set (name e) (VArr (firstn (N.to_nat n) it)) acc,
          skipn (N.to_nat n) it).
Proof.
  assert (Hfield :
    parseResponseField (S fuel) this (Field e) it (Some acc)
    = Ok (VArr (firstn (N.to_nat n) it), skipn (N.to_nat n) it)).
  { rewrite parseResponseField_array by exact Htype.
    unfold optional_prop, prop. rewrite Hlen, Hcount. cbn [bind].
    assert (Hfits : (n <= max_array_length)%N)
      by (unfold js_array in Hresponse; lia).
    destruct (count_fits Hfits) as [-> ->]. cbn [bind].
    replace (N.to_nat n - List.length it) with 0 by lia.
    simpl. now rewrite app_nil_r. }
  split; [exact Hfield|]. split.
  - apply firstn_length_le. exact Henough.
  - cbn [reduceM]. unfold decodeMember at 1. rewrite Hfield. reflexivity.
Qed.

Lemma parseResponseField_felt_array_witness :
  parseResponseField 1 Sample.store (Field (mkAbiEntry "data" "felt*"))
    [VStr "7"; VStr "8"; VStr "9"] (Some [("data_len", VStr "0x2")])
  = Ok (VArr [VStr "7"; VStr "8"], [VStr "9"]).
Proof.
  refine (proj1 (@parseResponseField_felt_array
                   0 Sample.store (mkAbiEntry "data" "felt*") []
                   [VStr "7"; VStr "8"; VStr "9"] [("data_len", VStr "0x2")]
                   (VStr "0x2") 2%N eq_refl eq_refl eq_refl _
                   (le_S _ _ (le_n 2)))).
  unfold js_array. vm_compute. discriminate.
Defined.

(** C4, as the code has it.  When the count [n] of a [felt*] field exceeds
    the number of elements left in the response, decoding never reports the
    end of the response.  For a count that an array can hold (at most
    [2^32 - 1]) it does not fail: the field is returned with exactly [n]
    entries, the elements that were left followed by [undefined] for each
    missing one, and the cursor is left exhausted.  For a larger count the
    array cannot hold the entries and [push] throws a [RangeError], and from
    [2^53] on [toNumber] throws its own assertion before the loop starts. *)
Theorem parseResponseField_felt_array_exhausted
  (fuel : nat) (this : Contract) (e : AbiEntry)
  (it : cursor) (acc : dict value) (v : value) (n : N)
  (Htype : type e = "felt*")
  (Hlen : dict_get (name e ++ "_len") acc = Some v)
  (Hcount : toBN v = Ok n)
  (Hshort : List.length it < N.to_nat n) :
  parseResponseField (S fuel) this (Field e) it (Some acc)
  = (if (9007199254740992 <=? n)%N then
       Err (AssertionError "Number can only safely store up to 53 bits")
     else if (max_array_length <? n)%N then Err RangeError
     else Ok (VArr (it ++ repeat VUndef (N.to_nat n - List.length it))%list,
              []))
  /\ List.length (it ++ repeat VUndef (N.to_nat n - List.length it))%list
     = N.to_nat n
  /\ parseResponseField (S fuel) this (Field e) it (Some acc)
     <> Err (AssertionError "unexpected end of response").
Proof.
  assert (Hfield :
    parseResponseField (S fuel) this (Field e) it (Some acc)
    = (if (9007199254740992 <=? n)%N then
         Err (AssertionError "Number can only safely store up to 53 bits")
       else if (max_array_length <? n)%N then Err RangeError
       else Ok (VArr (it ++ repeat VUndef (N.to_nat n - List.length it))%list,
                []))).
  { rewrite parseResponseField_array by exact Htype.
    unfold optional_prop, prop. rewrite Hlen, Hcount. cbn [bind].
    unfold BN_toNumber.
    destruct (N.leb_spec 9007199254740992 n) as [Hbig|Hsmall].
    - destruct (N.ltb_spec n 9007199254740992); [lia | reflexivity].
    - destruct (N.ltb_spec n 9007199254740992); [|lia]. cbn [bind].
      destruct (max_array_length <? n)%N; [reflexivity|].
      rewrite firstn_all2 by lia. rewrite skipn_all2 by lia. reflexivity. }
  split; [exact Hfield|]. split.
  - rewrite length_app, repeat_length. lia.
  - rewrite Hfield.
    destruct (9007199254740992 <=? n)%N; [discriminate|].
    destruct (max_array_length <? n)%N; discriminate.
Qed.

Lemma parseResponseField_felt_array_exhausted_witness :
  parseResponseField 1 Sample.store (Field (mkAbiEntry "data" "felt*"))
    [VStr "7"] (Some [("data_len", VStr "3")])
  = Ok (VArr [VStr "7"; VUndef; VUndef], []).
Proof.
  exact (proj1 (@parseResponseField_felt_array_exhausted
                  0 Sample.store (mkAbiEntry "data" "felt*")
                  [VStr "7"] [("data_len", VStr "3")]
                  (VStr "3") 3%N eq_refl eq_refl eq_refl
                  (le_S _ _ (le_n 2)))).
Defined.

(** The two limits, on a response of one element. *)
Example parseResponseField_count_beyond_array :
  parseResponseField 1 Sample.store (Field (mkAbiEntry "data" "felt*"))
    [VStr "7"] (Some [("data_len", VStr "4294967296")])
  = Err RangeError.
Proof. reflexivity. Qed.

Example parseResponseField_count_beyond_number :
  parseResponseField 1 Sample.store (Field (mkAbiEntry "data" "felt*"))
    [VStr "7"] (Some [("data_len", VStr "9007199254740992")])
  = Err (AssertionError "Number can only safely store up to 53 bits").
Proof. reflexivity. Qed.

(** C4 as the specification words it fails: a response that ends after one
    of three announced elements is decoded without any error, into an array
    padded with [undefined]. *)
Lemma parseResponse_short_response_accepted :
  parseResponse 2 Sample.store "get_data" [VStr "3"; VStr "7"]
  = Ok (VObj [("data_len", VStr "3");
              ("data", VArr [VStr "7"; VUndef; VUndef]);
              ("tail", VUndef)])
  /\ forall (fuel : nat) (err : error),
       parseResponse (2 + fuel) Sample.store "get_data" [VStr "3"; VStr "7"]
       <> Err err.
Proof.
  split; [reflexivity|].
  intros fuel err. cbn. discriminate.
Qed.

Lemma reduceM_app {A S : Type} (f : S -> A -> result S) (l1 l2 : list A)
  (st : S) :
  reduceM f (l1 ++ l2)%list st = (st' <- reduceM f l1 st ;; reduceM f l2 st').
Proof.
  revert st. induction l1 as [|x tl IH]; intros st; simpl; [reflexivity|].
  destruct (f st x) as [st'|err]; simpl; [apply IH | reflexivity].
Qed.

Lemma dict_set_keys {A : Type} (k k0 : string) (v : A) (o : dict A) :
  In k (map fst (dict_set k0 v o)) -> k = k0 \/ In k (map fst o).
Proof.
  induction o as [|[k' v'] tl IH]; simpl.
  - intros [<-|[]]. now left.
  - destruct (String.eqb k' k0); simpl; intros [<-|Hin]; auto.
    destruct (IH Hin); auto.
Qed.

(** The accumulator of a level holds entries under the names of the members
    decoded so far at that level, and under no other name. *)
Lemma decoded_keys (fuel : nat) (this : Contract) (l : list AbiEntry) :
  forall (acc0 acc : dict value) (it it' : cursor) (k : string),
    reduceM (decodeMember fuel this) l (acc0, it) = Ok (acc, it') ->
    In k (map fst acc) -> In k (map fst acc0) \/ In k (map name l).
Proof.
  induction l as [|m tl IH]; intros acc0 acc it it' k Hred Hin.
  - simpl in Hred. injection Hred as <- <-. now left.
  - cbn [reduceM] in Hred. apply bind_ok in Hred as [[acc1 it1] [Hm Htl]].
    unfold decodeMember in Hm. apply bind_ok in Hm as [r [_ Hr]].
    injection Hr as <- <-.
    destruct (IH _ _ _ _ k Htl Hin) as [H1|Hl]; [|right; now right].
    apply dict_set_keys in H1 as [->|H0]; [right; now left | now left].
Qed.

Lemma ends_with_len_append (k : string) : ends_with_len (k ++ "_len") = true.
Proof.
  induction k as [|c k IH]; [reflexivity|].
  change (String c k ++ "_len") with (String c (k ++ "_len")).
  cbn [ends_with_len]. rewrite IH. apply orb_true_r.
Qed.

(** No object inherits a property whose name ends in [_len]. *)
Lemma length_name_not_inherited (k : string) :
  is_inherited (k ++ "_len") = false.
Proof.
  destruct (is_inherited (k ++ "_len")) eqn:E; [|reflexivity].
  apply is_inherited_In in E.
  assert (Hnone : forallb (fun n => negb (ends_with_len n)) inherited_names
                  = true) by reflexivity.
  rewrite forallb_forall in Hnone. specialize (Hnone _ E).
  now rewrite ends_with_len_append in Hnone.
Qed.

Lemma parseResponseField_no_length (fuel : nat) (this : Contract)
  (e : AbiEntry) (it : cursor) (currentAcc : option (dict value)) :
  type e = "felt*" ->
  (forall acc, currentAcc = Some acc ->
               dict_get (name e ++ "_len") acc = None) ->
  parseResponseField (S fuel) this (Field e) it currentAcc = Err ParseError.
Proof.
  intros Htype Hmissing.
  rewrite parseResponseField_array by exact Htype.
  destruct currentAcc as [acc|]; cbn [optional_prop]; [|reflexivity].
  unfold prop.
  now rewrite (Hmissing acc eq_refl), length_name_not_inherited.
Qed.

(** C7.  When no member declared before a [felt*] member at its level is
    named [<name>_len], the accumulator holds no such entry once the members
    before it are decoded, and decoding the array member, and with it the
    whole level, fails with the parse error of the felt normalizer; the
    array is never decoded as empty. *)
Theorem parseResponseField_missing_length
  (fuel : nat) (this : Contract) (pre post : list AbiEntry) (e : AbiEntry)
  (it it' : cursor) (acc : dict value)
  (Htype : type e = "felt*")
  (Hundeclared : ~ In (name e ++ "_len") (map name pre))
  (Hpre : reduceM (decodeMember (S fuel) this) pre ([], it) = Ok (acc, it')) :
  dict_get (name e ++ "_len") acc = None
  /\ parseResponseField (S fuel) this (Field e) it' (Some acc) = Err ParseError
  /\ parseResponseField (S fuel) this (Field e) it' (Some acc)
     <> Ok (VArr [], it')
  /\ reduceM (decodeMember (S fuel) this) (pre ++ e :: post)%list ([], it)
     = Err ParseError.
Proof.
  assert (Habsent : dict_get (name e ++ "_len") acc = None).
  { apply dict_get_absent. intros Hin.
    destruct (@decoded_keys _ _ _ _ _ _ _ _ Hpre Hin) as [[]|Hdecl].
    exact (Hundeclared Hdecl). }
  assert (Hfield :
    parseResponseField (S fuel) this (Field e) it' (Some acc) = Err ParseError).
  { apply parseResponseField_no_length; [exact Htype|].
    intros acc' Hacc. injection Hacc as <-. exact Habsent. }
  split; [exact Habsent|]. split; [exact Hfield|]. split.
  - rewrite Hfield. discriminate.
  - rewrite reduceM_app, Hpre. cbn [bind reduceM].
    unfold decodeMember at 1. rewrite Hfield. reflexivity.
Qed.

Lemma parseResponseField_missing_length_witness :
  reduceM (decodeMember 1 Sample.store)
    [Sample.felt "size"; mkAbiEntry "data" "felt*"; Sample.felt "tail"]
    ([], [VStr "2"; VStr "7"; VStr "8"; VStr "9"])
  = Err ParseError.
Proof.
  refine (proj2 (proj2 (proj2 (@parseResponseField_missing_length
            0 Sample.store [Sample.felt "size"] [Sample.felt "tail"]
            (mkAbiEntry "data" "felt*")
            [VStr "2"; VStr "7"; VStr "8"; VStr "9"]
            [VStr "7"; VStr "8"; VStr "9"] [("size", VStr "2")]
            eq_refl _ eq_refl)))).
  simpl. intros [H|[]]. discriminate H.
Defined.

(** A function whose only output is an array: no response decodes. *)
Example parseResponse_missing_length (fuel : nat) (response : list value) :
  parseResponse (2 + fuel) Sample.store "get_raw" response = Err ParseError.
Proof. reflexivity. Qed.

(** ** The echo round trip *)

Lemma flat_echo (calldata : Calldata) : flat (echo calldata) = echo calldata.
Proof.
  unfold flat, echo. induction calldata as [|c tl IH]; simpl; [reflexivity|].
  now rewrite IH.
Qed.

Lemma canonical_string (v : value) :
  canonical v = true -> exists s, v = VStr s /\ compileValue v = Ok [s].
Proof.
  destruct v as [|s|n|l|o|fk]; simpl; try discriminate.
  destruct (normalize (VStr s)) as [s'|err]; simpl; [|discriminate].
  intros Heq. apply String.eqb_eq in Heq. subst s'. now exists s.
Qed.

Lemma compileCalldata_canonical (args : Args) :
  Forall (fun kv => canonical (snd kv) = true) args ->
  exists calldata,
    Object_values args = echo calldata /\ compileCalldata args = Ok calldata.
Proof.
  unfold compileCalldata, Object_values, echo.
  induction 1 as [|[k v] tl Hv _ [calldata [Hvals Hc]]]; simpl.
  - now exists [].
  - simpl in Hv. apply canonical_string in Hv as [s [-> Hs]].
    exists (s :: calldata). split; [now rewrite Hvals|].
    rewrite Hs. simpl. now rewrite Hc.
Qed.

Lemma combine_fst_snd {A B : Type} (l : list (A * B)) :
  combine (map fst l) (map snd l) = l.
Proof.
  induction l as [|[a b] tl IH]; simpl; [reflexivity | now rewrite IH].
Qed.

(** Decoding a run of [felt] members consumes one element for each and
    appends them to the accumulator under the members' names. *)
Lemma reduceM_felts (fuel : nat) (this : Contract) (entries : list AbiEntry) :
  forall (vals : list value) (acc : dict value) (rest : cursor),
    Forall (fun e => type e = "felt") entries ->
    List.length vals = List.length entries ->
    NoDup (map name entries) ->
    (forall e, In e entries -> ~ In (name e) (map fst acc)) ->
    reduceM (decodeMember (S fuel) this) entries (acc, (vals ++ rest)%list)
    = Ok ((acc ++ combine (map name entries) vals)%list, rest).
Proof.
  induction entries as [|e tl IH]; intros vals acc rest Hfelt Hlen Hnd Hfresh.
  - destruct vals; [|discriminate]. simpl. now rewrite app_nil_r.
  - destruct vals as [|v vals]; [discriminate|].
    inversion Hfelt as [|? ? Hty Hfelt']; subst.
    simpl in Hnd. inversion Hnd as [|? ? Hnin Hnd']; subst.
    cbn [reduceM]. unfold decodeMember at 1.
    cbn [parseResponseField element_type]. rewrite Hty.
    cbn [String.eqb Ascii.eqb Bool.eqb next app bind fst snd].
    change (next ((v :: vals) ++ rest)%list) with (v, (vals ++ rest)%list).
    cbn [fst snd].
    rewrite dict_set_fresh by (apply Hfresh; now left).
    rewrite IH; auto.
    + simpl. now rewrite <- app_assoc.
    + intros e' Hin. rewrite map_app, in_app_iff. simpl.
      intros [Hacc|[Heq|[]]].
      * exact (Hfresh e' (or_intror Hin) Hacc).
      * apply Hnin. rewrite Heq. now apply in_map.
Qed.

(** C1, as the code has it.  For a function that the ABI resolves under its
    name, that declares only [felt] inputs and outputs equal to its inputs,
    in an ABI with no struct named ['function'], and for an argument object
    that gives every input, in declaration order, a felt string in normal
    form: encoding succeeds and decoding the echoed calldata returns the
    arguments. *)
Theorem echo_roundtrip_felts
  (this : Contract) (f : FunctionAbi) (args : Args) (fuel : nat)
  (Hresolved : find (fun a => String.eqb (abi_name a) (fn_name f)) (abi this)
               = Some (AbiFunction f))
  (Hregistry : dict_get "function" (structs this) = None)
  (Hshape : outputs f = inputs f)
  (Hfelts : Forall (fun e => type e = "felt") (inputs f))
  (Hobject : NoDup (map fst args))
  (Horder : map fst args = map name (inputs f))
  (Hcanonical : Forall (fun kv => canonical (snd kv) = true) args) :
  roundtrip (2 + fuel) this f args.
Proof.
  destruct (compileCalldata_canonical Hcanonical) as [calldata [Hvals Hc]].
  exists calldata. split; [exact Hc|].
  unfold parseResponse. change (2 + fuel) with (S (S fuel)).
  rewrite flat_echo, Hresolved.
  rewrite parseResponseField_members by reflexivity.
  rewrite (member_entries_function _ _ Hregistry). cbn [bind].
  rewrite Hshape.
  rewrite <- (app_nil_r (echo calldata)).
  assert (Hlen : List.length (echo calldata) = List.length (inputs f)).
  { rewrite <- Hvals. unfold Object_values.
    rewrite length_map, <- (length_map fst args), Horder. apply length_map. }
  rewrite reduceM_felts; auto; [|now rewrite <- Horder].
  cbn [bind fst snd app]. rewrite <- Horder, <- Hvals.
  unfold Object_values. now rewrite combine_fst_snd.
Qed.

Lemma echo_roundtrip_felts_witness :
  roundtrip 2 Sample.mirror Sample.echo_felt [("user", VStr "1234")].
Proof.
  refine (@echo_roundtrip_felts Sample.mirror Sample.echo_felt
            [("user", VStr "1234")] 0
            eq_refl eq_refl eq_refl _ _ eq_refl _).
  - repeat constructor.
  - repeat constructor. simpl. tauto.
  - repeat constructor.
Defined.

(** C1 as the specification words it fails in four ways, each on arguments
    that supply every input in declaration order and pass validation: a
    hexadecimal felt comes back as its decimal numeral; an array comes back
    shifted by the length that the encoder prefixes to it; a struct comes
    back without its type tag; and under an ABI with a struct named
    ['function'] the response is decoded by that struct's members. *)
Lemma echo_roundtrip_fails :
  (well_typed_call Sample.mirror Sample.echo_felt [("user", VStr "0x10")]
   /\ forall fuel,
        ~ roundtrip fuel Sample.mirror Sample.echo_felt
            [("user", VStr "0x10")])
  /\ (well_typed_call Sample.mirror Sample.echo_array
        [("data_len", VStr "2"); ("data", VArr [VStr "5"; VStr "6"])]
      /\ forall fuel,
           ~ roundtrip fuel Sample.mirror Sample.echo_array
               [("data_len", VStr "2"); ("data", VArr [VStr "5"; VStr "6"])])
  /\ (well_typed_call Sample.mirror Sample.echo_point
        [("p", VObj [("type", VStr "struct"); ("x", VStr "1");
                     ("y", VStr "2")])]
      /\ forall fuel,
           ~ roundtrip fuel Sample.mirror Sample.echo_point
               [("p", VObj [("type", VStr "struct"); ("x", VStr "1");
                            ("y", VStr "2")])])
  /\ (well_typed_call Sample.shadowed Sample.echo_felt [("user", VStr "5")]
      /\ forall fuel,
           ~ roundtrip fuel Sample.shadowed Sample.echo_felt
               [("user", VStr "5")]).
Proof.
  split; [|split; [|split]]; (split; [repeat split | refute_roundtrip]).
Qed.

(** What the three echoes decode to. *)
Example echo_felt_decoded :
  compileCalldata [("user", VStr "0x10")] = Ok ["16"]
  /\ parseResponse 2 Sample.mirror "echo_felt" (echo ["16"])
     = Ok (VObj [("user", VStr "16")]).
Proof. split; reflexivity. Qed.

Example echo_array_decoded :
  compileCalldata [("data_len", VStr "2"); ("data", VArr [VStr "5"; VStr "6"])]
  = Ok ["2"; "2"; "5"; "6"]
  /\ parseResponse 2 Sample.mirror "echo_array" (echo ["2"; "2"; "5"; "6"])
     = Ok (VObj [("data_len", VStr "2"); ("data", VArr [VStr "2"; VStr "5"])]).
Proof. split; reflexivity. Qed.

(** The array alone, as callers pass it: the decoded mapping carries the
    length entry that the arguments did not. *)
Example echo_array_alone_decoded :
  compileCalldata [("data", VArr [VStr "5"; VStr "6"])] = Ok ["2"; "5"; "6"]
  /\ parseResponse 2 Sample.mirror "echo_array" (echo ["2"; "5"; "6"])
     = Ok (VObj [("data_len", VStr "2"); ("data", VArr [VStr "5"; VStr "6"])]).
Proof. split; reflexivity. Qed.

Example echo_shadowed_decoded :
  parseResponse 2 Sample.shadowed "echo_felt" (echo ["5"])
  = Ok (VObj [("a", VStr "5")]).
Proof. reflexivity. Qed.

Example echo_point_decoded :
  compileCalldata
    [("p", VObj [("type", VStr "struct"); ("x", VStr "1"); ("y", VStr "2")])]
  = Ok ["1"; "2"]
  /\ parseResponse 3 Sample.mirror "echo_point" (echo ["1"; "2"])
     = Ok (VObj [("p", VObj [("x", VStr "1"); ("y", VStr "2")])]).
Proof. split; reflexivity. Qed.

(** ** Normal forms *)

Lemma string_of_uint_not_hex (d : Decimal.uint) :
  isHex (DecimalString.NilZero.string_of_uint d) = false.
Proof.
  unfold isHex.
  destruct d as [|d|d|d|d|d|d|d|d|d|d]; try reflexivity.
  destruct d; reflexivity.
Qed.

Lemma toBN_toString (n : N) : toBN (VStr (BN_toString n)) = Ok n.
Proof.
  unfold toBN, BN_toString. rewrite string_of_uint_not_hex.
  unfold parse_decimal. rewrite DecimalString.NilZero.usu.
  - now rewrite DecimalN.Unsigned.of_to.
  - destruct n as [|p]; [discriminate | apply DecimalPos.Unsigned.to_uint_nonnil].
Qed.

(** Every numeral that the encoder emits is in normal form, so the premise
    of the round trip holds for every decimal numeral without leading
    zeros. *)
Lemma canonical_decimal (n : N) : canonical (VStr (BN_toString n)) = true.
Proof.
  unfold canonical, normalize. rewrite toBN_toString. simpl.
  apply String.eqb_refl.
Qed.

(** * Further properties of the codec *)

(** ** The encoder *)

Lemma compileValue_scalar (v : value) (s : string) :
  is_object v = false -> normalize v = Ok s -> compileValue v = Ok [s].
Proof.
  intros Hobj Hn.
  destruct v; try discriminate; unfold compileValue; now rewrite Hn.
Qed.

(** X1: a string or a number contributes exactly one element, its
    decimal numeral, between the contributions of its neighbours. *)
Theorem compileCalldata_scalar
  (pre post : Args) (k : string) (v : value) (c1 c2 : Calldata) (n : N)
  (Hpre : compileCalldata pre = Ok c1)
  (Hscalar : is_object v = false)
  (Hfelt : toBN v = Ok n)
  (Hpost : compileCalldata post = Ok c2) :
  compileCalldata (pre ++ (k, v) :: post)%list
  = Ok (c1 ++ BN_toString n :: c2)%list.
Proof.
  apply compileCalldata_insert with (c := [BN_toString n]); auto.
  apply compileValue_scalar; [exact Hscalar|].
  unfold normalize. now rewrite Hfelt.
Qed.

Lemma compileCalldata_scalar_witness :
  compileCalldata
    [("to", VStr "0x10"); ("amount", VStr "0xff"); ("salt", VNum 9)]
  = Ok ["16"; "255"; "9"].
Proof.
  exact (@compileCalldata_scalar
           [("to", VStr "0x10")] [("salt", VNum 9)] "amount" (VStr "0xff")
           ["16"] ["9"] 255%N eq_refl eq_refl eq_refl eq_refl).
Defined.

Lemma flatMapM_is_ok {A B : Type} (f : A -> result (list B)) (l : list A) :
  is_ok (flatMapM f l) = forallb (fun x => is_ok (f x)) l.
Proof.
  induction l as [|x tl IH]; simpl; [reflexivity|].
  destruct (f x) as [ys|e]; simpl; [|reflexivity].
  rewrite <- IH. now destruct (flatMapM f tl).
Qed.

Lemma flatMapM_first_error {A B : Type} (f : A -> result (list B))
  (l1 l2 : list A) (x : A) (r1 : list B) (e : error) :
  flatMapM f l1 = Ok r1 -> f x = Err e ->
  flatMapM f (l1 ++ x :: l2)%list = Err e.
Proof.
  revert r1. induction l1 as [|y tl IH]; simpl; intros r1 H1 Hx.
  - now rewrite Hx.
  - destruct (f y) as [ys|e']; simpl in *; [|discriminate].
    destruct (flatMapM f tl) as [zs|e']; simpl in *; [|discriminate].
    now rewrite (IH zs eq_refl Hx).
Qed.

(** X2: encoding is all or nothing.  It succeeds exactly when every value
    encodes on its own, and when the values before one encode and that one
    does not, the call throws that value's exception and yields no
    calldata, whatever follows. *)
Theorem compileCalldata_all_or_nothing
  (pre post : Args) (k : string) (v : value) (c1 : Calldata) (e : error)
  (Hpre : compileCalldata pre = Ok c1)
  (Hbad : compileValue v = Err e) :
  compileCalldata (pre ++ (k, v) :: post)%list = Err e
  /\ forall args : Args,
       is_ok (compileCalldata args)
       = forallb (fun w => is_ok (compileValue w)) (Object_values args).
Proof.
  split.
  - unfold compileCalldata, Object_values in *. rewrite map_app. simpl.
    now apply flatMapM_first_error with (r1 := c1).
  - intros args. apply flatMapM_is_ok.
Qed.

Lemma compileCalldata_all_or_nothing_witness :
  compileCalldata
    [("to", VStr "0x10"); ("amount", VStr "ten"); ("salt", VStr "9")]
  = Err ParseError.
Proof.
  exact (proj1 (@compileCalldata_all_or_nothing
                  [("to", VStr "0x10")] [("salt", VStr "9")] "amount"
                  (VStr "ten") ["16"] ParseError eq_refl eq_refl)).
Defined.

Lemma mapM_Forall {A B : Type} (f : A -> result B) (P : B -> Prop)
  (l : list A) (r : list B) :
  (forall x y, f x = Ok y -> P y) -> mapM f l = Ok r -> Forall P r.
Proof.
  intros Hf. revert r. induction l as [|x tl IH]; simpl; intros r Hr.
  - injection Hr as <-. constructor.
  - apply bind_ok in Hr as [y [Hy Hr]].
    apply bind_ok in Hr as [ys [Hys Hr]]. injection Hr as <-.
    constructor; [exact (Hf x y Hy) | exact (IH ys Hys)].
Qed.

Lemma mapM_length {A B : Type} (f : A -> result B) (l : list A) (r : list B) :
  mapM f l = Ok r -> List.length r = List.length l.
Proof.
  revert r. induction l as [|x tl IH]; simpl; intros r Hr.
  - now injection Hr as <-.
  - apply bind_ok in Hr as [y [_ Hr]].
    apply bind_ok in Hr as [ys [Hys Hr]]. injection Hr as <-.
    simpl. now rewrite (IH ys Hys).
Qed.

Lemma normalize_decimal (v : value) (s : string) :
  normalize v = Ok s -> exists n, s = BN_toString n.
Proof.
  unfold normalize. intros H. apply bind_ok in H as [n [_ H]].
  injection H as <-. now exists n.
Qed.

Lemma compileValue_decimal (v : value) (c : list string) :
  compileValue v = Ok c -> Forall (fun s => exists n, s = BN_toString n) c.
Proof.
  destruct v as [|s|n|l|o|fk]; unfold compileValue.
  - intros H. apply bind_ok in H as [s [Hs H]]. injection H as <-.
    constructor; [exact (normalize_decimal _ Hs) | constructor].
  - intros H. apply bind_ok in H as [s' [Hs H]]. injection H as <-.
    constructor; [exact (normalize_decimal _ Hs) | constructor].
  - intros H. apply bind_ok in H as [s' [Hs H]]. injection H as <-.
    constructor; [exact (normalize_decimal _ Hs) | constructor].
  - intros H. apply bind_ok in H as [len [Hlen H]].
    apply bind_ok in H as [elems [Helems H]]. injection H as <-.
    constructor; [exact (normalize_decimal _ Hlen)|].
    apply (mapM_Forall normalize _ l); [|exact Helems].
    intros x y. apply normalize_decimal.
  - destruct (has_key "type" o).
    + apply mapM_Forall. intros kv y. apply normalize_decimal.
    + intros H. apply bind_ok in H as [s' [Hs H]]. injection H as <-.
      constructor; [exact (normalize_decimal _ Hs) | constructor].
  - intros H. apply bind_ok in H as [s' [Hs H]]. injection H as <-.
    constructor; [exact (normalize_decimal _ Hs) | constructor].
Qed.

Lemma compileCalldata_decimal (args : Args) (c : Calldata) :
  compileCalldata args = Ok c ->
  Forall (fun s => exists n, s = BN_toString n) c.
Proof.
  unfold compileCalldata. generalize (Object_values args). intros l.
  revert c. induction l as [|v tl IH]; simpl; intros c Hc.
  - injection Hc as <-. constructor.
  - apply bind_ok in Hc as [ys [Hys Hc]].
    apply bind_ok in Hc as [zs [Hzs Hc]]. injection Hc as <-.
    apply Forall_app. split; [exact (compileValue_decimal _ Hys) | auto].
Qed.

Lemma decimal_strings_compile (c : Calldata) :
  Forall (fun s => exists n, s = BN_toString n) c ->
  mapM normalize (echo c) = Ok c /\ flatMapM compileValue (echo c) = Ok c.
Proof.
  unfold echo. induction 1 as [|s tl [n ->] _ [IHm IHf]].
  - split; reflexivity.
  - assert (Hn : normalize (VStr (BN_toString n)) = Ok (BN_toString n)).
    { unfold normalize. now rewrite toBN_toString. }
    split; cbn [map mapM flatMapM].
    + now rewrite Hn, IHm.
    + rewrite (@compileValue_scalar (VStr (BN_toString n)) _ eq_refl Hn).
      cbn [bind]. now rewrite IHf.
Qed.

Lemma map_snd_combine {A B : Type} (l1 : list A) (l2 : list B) :
  List.length l1 = List.length l2 -> map snd (combine l1 l2) = l2.
Proof.
  revert l2. induction l1 as [|a tl IH]; intros [|b l2] Hlen;
    try discriminate; simpl; [reflexivity|].
  f_equal. apply IH. now injection Hlen.
Qed.

(** X4: encoded calldata can be fed back to the encoder.  Passed again as
    scalar arguments under any names it encodes to itself, and passed as
    one array argument (the way a batch of calls is handed to an
    aggregating contract) it encodes to its length followed by itself. *)
Theorem compileCalldata_reencode
  (args : Args) (c : Calldata) (names : list string) (k : string)
  (Hc : compileCalldata args = Ok c)
  (Hnames : List.length names = List.length c) :
  compileCalldata (combine names (echo c)) = Ok c
  /\ compileCalldata [(k, VArr (echo c))]
     = Ok (BN_toString (N.of_nat (List.length c)) :: c).
Proof.
  destruct (decimal_strings_compile (compileCalldata_decimal _ Hc))
    as [Hm Hf].
  split.
  - unfold compileCalldata, Object_values.
    rewrite map_snd_combine; [exact Hf|].
    unfold echo. now rewrite length_map.
  - unfold compileCalldata. change (Object_values [(k, VArr (echo c))])
      with [VArr (echo c)]. cbn [flatMapM].
    rewrite (compileValue_array _ Hm). cbn [bind].
    unfold echo. now rewrite length_map, app_nil_r.
Qed.

Lemma compileCalldata_reencode_witness :
  compileCalldata [("a", VStr "16"); ("b", VStr "255")] = Ok ["16"; "255"]
  /\ compileCalldata [("calls", VArr [VStr "16"; VStr "255"])]
     = Ok ["2"; "16"; "255"].
Proof.
  exact (@compileCalldata_reencode
           [("to", VStr "0x10"); ("amount", VStr "0xff")] ["16"; "255"]
           ["a"; "b"] "calls" eq_refl eq_refl).
Defined.

Lemma compileValue_length (v : value) (c : list string) :
  compileValue v = Ok c -> List.length c = wire_size v.
Proof.
  destruct v as [|s|n|l|o|fk]; unfold compileValue, wire_size.
  - intros H. apply bind_ok in H as [s [_ H]]. now injection H as <-.
  - intros H. apply bind_ok in H as [s' [_ H]]. now injection H as <-.
  - intros H. apply bind_ok in H as [s' [_ H]]. now injection H as <-.
  - intros H. apply bind_ok in H as [len [_ H]].
    apply bind_ok in H as [elems [Helems H]]. injection H as <-.
    simpl. now rewrite (mapM_length _ _ Helems).
  - destruct (has_key "type" o).
    + apply mapM_length.
    + intros H. apply bind_ok in H as [s' [_ H]]. now injection H as <-.
  - intros H. apply bind_ok in H as [s' [_ H]]. now injection H as <-.
Qed.

(** X5: the calldata has one element for each scalar, one more than its
    length for each array, and one for each member other than the tag for
    each struct-tagged value. *)
Theorem compileCalldata_length (args : Args) (c : Calldata)
  (Hc : compileCalldata args = Ok c) :
  List.length c = list_sum (map wire_size (Object_values args)).
Proof.
  revert c Hc. unfold compileCalldata. generalize (Object_values args).
  intros l. induction l as [|v tl IH]; simpl; intros c Hc.
  - now injection Hc as <-.
  - apply bind_ok in Hc as [ys [Hys Hc]].
    apply bind_ok in Hc as [zs [Hzs Hc]]. injection Hc as <-.
    rewrite length_app, (compileValue_length _ Hys), (IH zs Hzs).
    reflexivity.
Qed.

Lemma compileCalldata_length_witness :
  List.length ["16"; "2"; "7"; "8"; "1"; "2"] = 6.
Proof.
  exact (@compileCalldata_length
           [("to", VStr "0x10"); ("data", VArr [VStr "7"; VStr "8"]);
            ("p", VObj [("type", VStr "struct"); ("x", VStr "1");
                        ("y", VStr "2")])]
           ["16"; "2"; "7"; "8"; "1"; "2"] eq_refl).
Defined.

(** ** The struct registry *)

Lemma struct_entries_In (l : list Abi) (s : StructAbi) :
  In s (struct_entries l) <-> In (AbiStruct s) l.
Proof.
  induction l as [|[f|s'] tl IH]; simpl.
  - tauto.
  - rewrite IH. split; [now right | intros [H|H]; [discriminate | exact H]].
  - rewrite IH. split; intros [H|H]; auto.
    + left. now subst.
    + left. now injection H.
Qed.

Lemma dict_set_NoDup {A : Type} (k : string) (v : A) (o : dict A) :
  NoDup (map fst o) -> NoDup (map fst (dict_set k v o)).
Proof.
  induction o as [|[k' v'] tl IH]; simpl; intros Hnd.
  - constructor; [intros [] | constructor].
  - inversion Hnd as [|? ? Hnin Hnd']; subst.
    destruct (String.eqb_spec k' k) as [->|Hne]; simpl.
    + constructor; assumption.
    + constructor; [|auto].
      intros Hin. apply dict_set_keys in Hin as [->|Hin];
        [now apply Hne | now apply Hnin].
Qed.

Lemma registry_NoDup (l : list StructAbi) (acc : dict StructAbi) :
  NoDup (map fst acc) ->
  NoDup (map fst
    (fold_left (fun acc abiEntry => dict_set (st_name abiEntry) abiEntry acc)
               l acc)).
Proof.
  revert acc. induction l as [|s tl IH]; intros acc Hnd; simpl;
    [exact Hnd|].
  apply IH. now apply dict_set_NoDup.
Qed.

(** X6: the registry holds exactly the structs the ABI declares.  An entry
    found under a name is a struct entry of the ABI that carries that name,
    every declared struct name is a key, no function entry is registered,
    and no name occurs twice among the keys. *)
Theorem structs_exactly_declared
  (abi0 : list Abi) (address : option string) (n : string) (s : StructAbi)
  (Hget : dict_get n (structs (new_Contract abi0 address)) = Some s) :
  (In (AbiStruct s) abi0 /\ st_name s = n)
  /\ (forall s', In (AbiStruct s') abi0 ->
                 has_key (st_name s') (structs (new_Contract abi0 address))
                 = true)
  /\ NoDup (map fst (structs (new_Contract abi0 address))).
Proof.
  unfold new_Contract, build_structs in *. simpl in *.
  split; [|split].
  - rewrite registry_fold in Hget. simpl in Hget.
    destruct (find _ _) as [s0|] eqn:Hfind; [|discriminate].
    injection Hget as ->. apply find_some in Hfind as [Hin Hname].
    apply in_rev, struct_entries_In in Hin.
    apply String.eqb_eq in Hname. auto.
  - intros s' Hin. unfold has_key. rewrite registry_fold. simpl.
    destruct (find _ _) as [s0|] eqn:Hfind; [reflexivity|].
    apply struct_entries_In, in_rev in Hin.
    apply (find_none _ _ Hfind) in Hin. now rewrite String.eqb_refl in Hin.
  - apply registry_NoDup. constructor.
Qed.

Lemma structs_exactly_declared_witness :
  In (AbiStruct Sample.Point3)
     [AbiStruct Sample.Point; AbiFunction Sample.mint; AbiStruct Sample.Point3]
  /\ st_name Sample.Point3 = "Point".
Proof.
  exact (proj1 (@structs_exactly_declared
                  [AbiStruct Sample.Point; AbiFunction Sample.mint;
                   AbiStruct Sample.Point3] None "Point" Sample.Point3
                  eq_refl)).
Defined.

(** ** The validator *)

Lemma forEachM_from_err {A : Type} (f : A -> nat -> result unit) (l : list A)
  (i : nat) (e : error) :
  forEachM_from i f l = Err e -> exists x j, In x l /\ f x j = Err e.
Proof.
  revert i. induction l as [|x tl IH]; simpl; intros i H; [discriminate|].
  destruct (f x i) as [[]|e'] eqn:Hx; simpl in H.
  - destruct (IH _ H) as [y [j [Hin Hy]]]. exists y, j. auto.
  - injection H as ->. exists x, i. auto.
Qed.

Lemma forEachM_from_ok {A : Type} (f : A -> nat -> result unit) (l : list A)
  (i : nat) :
  forEachM_from i f l = Ok tt -> forall x, In x l -> exists j, f x j = Ok tt.
Proof.
  revert i. induction l as [|x tl IH]; simpl; intros i H y Hin;
    [contradiction|].
  destruct (f x i) as [[]|e'] eqn:Hx; simpl in H; [|discriminate].
  destruct Hin as [<-|Hin]; [now exists i | exact (IH _ H y Hin)].
Qed.

Lemma forEachM_from_is_ok {A : Type} (f : A -> nat -> result unit)
  (p : A -> bool) (l : list A) (i : nat) :
  (forall x j, is_ok (f x j) = p x) ->
  is_ok (forEachM_from i f l) = forallb p l.
Proof.
  intros Hf. revert i. induction l as [|x tl IH]; simpl; intros i;
    [reflexivity|].
  rewrite <- (Hf x i). destruct (f x i) as [[]|e]; simpl; [apply IH | reflexivity].
Qed.

Lemma forEachM_from_first_error {A : Type} (f : A -> nat -> result unit)
  (good rest : list A) (bad : A) (i : nat) :
  (forall x j, In x good -> f x j = Ok tt) ->
  forEachM_from i f (good ++ bad :: rest)%list
  = (f bad (i + List.length good) ;;; 
     forEachM_from (S (i + List.length good)) f rest).
Proof.
  intros Hgood. revert i. induction good as [|x tl IH]; simpl; intros i.
  - now rewrite Nat.add_0_r.
  - rewrite (Hgood x i (or_introl eq_refl)). simpl.
    rewrite IH by (intros y j Hy; apply Hgood; now right).
    now rewrite Nat.add_succ_r.
Qed.

Lemma assert_arg_message (cond : bool) (msg : string) (e : error) :
  assert cond ("arg " ++ msg) = Err e ->
  exists rest, e = AssertionError ("arg " ++ rest).
Proof.
  destruct cond; simpl; [discriminate|]. intros H. injection H as <-.
  now exists msg.
Qed.

Lemma validateElement_message (input : AbiEntry) (felt : value) (i : nat)
  (e : error) :
  validateElement input felt i = Err e ->
  exists rest, e = AssertionError ("arg " ++ rest).
Proof.
  unfold validateElement.
  destruct (is_string felt); simpl.
  - destruct (isFelt felt); simpl; [discriminate|].
    intros H. injection H as <-. eexists. reflexivity.
  - intros H. injection H as <-. eexists. reflexivity.
Qed.

Lemma validateInput_message (args : Args) (input : AbiEntry) (e : error) :
  validateInput args input = Err e ->
  exists rest, e = AssertionError ("arg " ++ rest).
Proof.
  unfold validateInput.
  destruct (is_undefined _); [discriminate|].
  destruct (String.eqb (type input) "felt").
  - destruct (is_string _); simpl.
    + destruct (isFelt _); simpl; [discriminate|].
      intros H. injection H as <-. eexists. reflexivity.
    + intros H. injection H as <-. eexists. reflexivity.
  - destruct (is_object _ && has_property "type" _).
    + destruct (strict_eq_string _ _); simpl; [discriminate|].
      intros H. injection H as <-. eexists. reflexivity.
    + destruct (isArray _); simpl.
      * intros H. apply forEachM_from_err in H as [x [j [_ H]]].
        exact (validateElement_message _ _ _ H).
      * intros H. injection H as <-. eexists. reflexivity.
Qed.

(** X7: the "method not found" assertion is thrown exactly when no
    function entry of that name fits the call kind: once such an entry
    exists, whatever validation then reports is about an argument. *)
Theorem validateMethodAndArgs_not_found_iff
  (this : Contract) (ty : CallType) (method : string) (args : Args) :
  validateMethodAndArgs this ty method args
  = Err (AssertionError (not_found_message ty))
  <-> (forall f, In (AbiFunction f) (abi this) -> fn_name f = method ->
                 callable ty (AbiFunction f) = false).
Proof.
  split.
  - intros Herr f Hin Hname.
    destruct (callable ty (AbiFunction f)) eqn:Hcall; [|reflexivity].
    exfalso.
    assert (Hinc : includes (invokeableFunctionNames this ty) method = true).
    { apply includes_In, invokeable_In. exists f. auto. }
    unfold validateMethodAndArgs in Herr. rewrite Hinc in Herr. simpl in Herr.
    destruct (find_function this method) as [[g|s]|];
      try discriminate Herr.
    apply forEachM_from_err in Herr as [x [j [_ Hx]]].
    apply validateInput_message in Hx as [rest Hrest].
    destruct ty; discriminate Hrest.
  - intros Hnone. unfold validateMethodAndArgs.
    destruct (includes (invokeableFunctionNames this ty) method) eqn:Hinc;
      [|reflexivity].
    apply includes_In, invokeable_In in Hinc as [f [Hin [Hname Hcall]]].
    rewrite (Hnone f Hin Hname) in Hcall. discriminate.
Qed.

Lemma validateMethodAndArgs_not_found_iff_witness :
  validateMethodAndArgs Sample.erc20 INVOKE "mint" [("amount", VNum 10)]
  <> Err (AssertionError (not_found_message INVOKE)).
Proof.
  intros H.
  pose proof (proj1 (@validateMethodAndArgs_not_found_iff
                       Sample.erc20 INVOKE "mint" [("amount", VNum 10)]) H
                Sample.mint (or_intror (or_introl eq_refl)) eq_refl) as Hfit.
  discriminate Hfit.
Defined.

Lemma forEachM_from_ext {A : Type} (f g : A -> nat -> result unit)
  (l : list A) (i : nat) :
  (forall x j, In x l -> f x j = g x j) ->
  forEachM_from i f l = forEachM_from i g l.
Proof.
  revert i. induction l as [|x tl IH]; simpl; intros i Hfg; [reflexivity|].
  rewrite (Hfg x i (or_introl eq_refl)).
  destruct (g x i); simpl; [|reflexivity].
  apply IH. intros y j Hy. apply Hfg. now right.
Qed.

Lemma validateInput_reads_own_name (args1 args2 : Args) (input : AbiEntry) :
  prop (name input) args1 = prop (name input) args2 ->
  validateInput args1 input = validateInput args2 input.
Proof.
  unfold validateInput. now intros ->.
Qed.

(** X8: validation reads the arguments only under the names of the
    declared inputs: two argument mappings that agree there validate alike
    (same success, same exception), so entries under other names are never
    looked at. *)
Theorem validateMethodAndArgs_declared_only
  (this : Contract) (ty : CallType) (method : string) (args1 args2 : Args)
  (methodAbi : FunctionAbi)
  (Hresolved : find_function this method = Some (AbiFunction methodAbi))
  (Hagree : forall input, In input (inputs methodAbi) ->
              prop (name input) args1 = prop (name input) args2) :
  validateMethodAndArgs this ty method args1
  = validateMethodAndArgs this ty method args2.
Proof.
  unfold validateMethodAndArgs. rewrite Hresolved.
  destruct (assert _ _); simpl; [|reflexivity].
  apply forEachM_from_ext. intros x j Hx.
  apply validateInput_reads_own_name. now apply Hagree.
Qed.

Lemma validateMethodAndArgs_declared_only_witness :
  validateMethodAndArgs Sample.erc20 INVOKE "mint"
    [("amount", VStr "10"); ("memo", VStr "not a felt")]
  = validateMethodAndArgs Sample.erc20 INVOKE "mint" [("amount", VStr "10")].
Proof.
  refine (@validateMethodAndArgs_declared_only
            Sample.erc20 INVOKE "mint"
            [("amount", VStr "10"); ("memo", VStr "not a felt")]
            [("amount", VStr "10")] Sample.mint eq_refl _).
  intros input Hin. simpl in Hin.
  destruct Hin as [<-|[<-|[]]]; reflexivity.
Defined.

Lemma isFelt_toBN (v : value) : isFelt v = is_ok (toBN v).
Proof.
  unfold isFelt, parseFelt. now destruct (toBN v).
Qed.

Lemma validateElement_accepts (input : AbiEntry) (x : value) (i : nat) :
  is_ok (validateElement input x i) = acceptable_felt x.
Proof.
  unfold validateElement, acceptable_felt. rewrite <- isFelt_toBN.
  destruct (is_string x); simpl; [|reflexivity].
  now destruct (isFelt x).
Qed.

Lemma validateInput_accepts (args : Args) (input : AbiEntry) :
  is_ok (validateInput args input) = accepts args input.
Proof.
  unfold validateInput, accepts.
  destruct (is_undefined _); [reflexivity|]. simpl.
  destruct (String.eqb (type input) "felt").
  - unfold acceptable_felt. rewrite <- isFelt_toBN.
    destruct (is_string _); simpl; [|reflexivity]. now destruct (isFelt _).
  - destruct (is_object _ && has_property "type" _).
    + now destruct (strict_eq_string _ _).
    + destruct (isArray _); simpl; [|reflexivity].
      apply forEachM_from_is_ok. apply validateElement_accepts.
Qed.

(** X9: for a method that is resolved, validation succeeds exactly when
    every declared input is acceptable: its argument is absent, or, for a
    [felt], a string that parses; otherwise an object whose [type] is
    ['struct'], or, the object carrying no [type], an array of strings that
    parse.  A number is refused where the encoder would take it.  (Input
    names are taken not to be names that every object inherits.) *)
Theorem validateMethodAndArgs_accepts
  (this : Contract) (ty : CallType) (method : string) (args : Args)
  (methodAbi : FunctionAbi)
  (Hfound : includes (invokeableFunctionNames this ty) method = true)
  (Hresolved : find_function this method = Some (AbiFunction methodAbi))
  (Hown : forall input, In input (inputs methodAbi) ->
                        ~ In (name input) inherited_names) :
  is_ok (validateMethodAndArgs this ty method args)
  = forallb (accepts args) (inputs methodAbi).
Proof.
  unfold validateMethodAndArgs. rewrite Hfound, Hresolved. simpl.
  apply forEachM_from_is_ok. intros x j. apply validateInput_accepts.
Qed.

Lemma validateMethodAndArgs_accepts_witness :
  is_ok (validateMethodAndArgs Sample.erc20 INVOKE "mint"
           [("recipient", VStr "0x1"); ("amount", VNum 10)])
  = false
  /\ is_ok (compileCalldata [("recipient", VStr "0x1"); ("amount", VNum 10)])
     = true.
Proof.
  split; [|reflexivity].
  rewrite (@validateMethodAndArgs_accepts
             Sample.erc20 INVOKE "mint"
             [("recipient", VStr "0x1"); ("amount", VNum 10)] Sample.mint
             eq_refl eq_refl).
  - reflexivity.
  - intros input Hin. simpl in Hin.
    destruct Hin as [<-|[<-|[]]]; simpl; intuition discriminate.
Defined.

(** X10: beyond telling [felt] from everything else, validation does not
    read the declared type of an input and never consults the struct
    registry: under any two declared types other than [felt], be they
    [felt*] or struct names, an argument validates alike, so that a
    struct-tagged object passes for a [felt*] input and an array of felts
    for a struct input. *)
Theorem validateInput_type_blind
  (args : Args) (n t1 t2 : string)
  (H1 : t1 <> "felt") (H2 : t2 <> "felt") :
  validateInput args (mkAbiEntry n t1) = validateInput args (mkAbiEntry n t2).
Proof.
  unfold validateInput. simpl.
  apply String.eqb_neq in H1, H2. now rewrite H1, H2.
Qed.

Lemma validateInput_type_blind_witness :
  validateInput [("p", VArr [VStr "1"; VStr "2"])] (mkAbiEntry "p" "Point")
  = Ok tt
  /\ validateInput [("p", VObj [("type", VStr "struct"); ("x", VStr "1")])]
       (mkAbiEntry "p" "felt*")
     = Ok tt.
Proof.
  split.
  - rewrite (@validateInput_type_blind
               [("p", VArr [VStr "1"; VStr "2"])] "p" "Point" "felt*");
      [reflexivity | discriminate | discriminate].
  - rewrite (@validateInput_type_blind
               [("p", VObj [("type", VStr "struct"); ("x", VStr "1")])]
               "p" "felt*" "Point");
      [reflexivity | discriminate | discriminate].
Defined.

Lemma append_assoc (a b c : string) : ((a ++ b) ++ c = a ++ (b ++ c))%string.
Proof.
  induction a as [|ch a IH]; simpl; [reflexivity | now rewrite IH].
Qed.

(** X11: in an array argument the first element that is not a string that
    parses is the one reported, by its index, with the message for a
    non-string or for an unparsable string; the elements after it are not
    examined. *)
Theorem validateInput_offending_index
  (args : Args) (input : AbiEntry) (good rest : list value) (bad : value)
  (Htype : type input <> "felt")
  (Harg : prop (name input) args = VArr (good ++ bad :: rest)%list)
  (Hgood : forallb acceptable_felt good = true)
  (Hbad : acceptable_felt bad = false) :
  validateInput args input
  = Err (AssertionError
           ("arg " ++ name input ++ "["
            ++ BN_toString (N.of_nat (List.length good)) ++ "]"
            ++ (if is_string bad
                then " should be decimal or hexadecimal as part of a felt* (string[])"
                else " should be a felt (string) as part of a felt* (string[])"))).
Proof.
  unfold validateInput. rewrite Harg. simpl.
  apply String.eqb_neq in Htype. rewrite Htype.
  unfold forEachM. rewrite forEachM_from_first_error.
  - simpl. unfold validateElement.
    unfold acceptable_felt in Hbad. rewrite <- isFelt_toBN in Hbad.
    destruct (is_string bad); simpl in *.
    + rewrite Hbad. simpl.
      do 2 f_equal. rewrite !append_assoc. simpl.
      now rewrite !append_assoc.
    + do 2 f_equal. rewrite !append_assoc. simpl.
      now rewrite !append_assoc.
  - intros x j Hx. rewrite forallb_forall in Hgood.
    specialize (Hgood x Hx). rewrite <- (validateElement_accepts input x j) in Hgood.
    now destruct (validateElement input x j) as [[]|].
Qed.

Lemma validateInput_offending_index_witness :
  validateInput [("data", VArr [VStr "1"; VStr "0x2"; VNum 3; VStr "x"])]
    (mkAbiEntry "data" "felt*")
  = Err (AssertionError
           "arg data[2] should be a felt (string) as part of a felt* (string[])").
Proof.
  refine (@validateInput_offending_index
           [("data", VArr [VStr "1"; VStr "0x2"; VNum 3; VStr "x"])]
           (mkAbiEntry "data" "felt*") [VStr "1"; VStr "0x2"] [VStr "x"]
           (VNum 3) _ eq_refl eq_refl eq_refl).
  discriminate.
Defined.

Lemma acceptable_felts_normalize (l : list value) :
  forallb acceptable_felt l = true -> is_ok (mapM normalize l) = true.
Proof.
  induction l as [|x tl IH]; simpl; [reflexivity|].
  intros H. apply andb_true_iff in H as [Hx Htl].
  unfold acceptable_felt in Hx. apply andb_true_iff in Hx as [_ Hx].
  unfold normalize at 1. destruct (toBN x); [|discriminate]. simpl.
  specialize (IH Htl). now destruct (mapM normalize tl).
Qed.

Lemma accepted_value_compiles (args : Args) (input : AbiEntry) :
  accepts args input = true ->
  is_undefined (prop (name input) args) = false ->
  has_property "type" (prop (name input) args) = false ->
  is_ok (compileValue (prop (name input) args)) = true.
Proof.
  unfold accepts. intros Hacc Hdef Htag. rewrite Hdef, Htag in Hacc.
  rewrite andb_false_r in Hacc. simpl in Hacc.
  destruct (String.eqb (type input) "felt").
  - unfold acceptable_felt in Hacc. apply andb_true_iff in Hacc as [Hs Hn].
    destruct (prop (name input) args) as [|s|n|l|o|fk]; try discriminate.
    unfold compileValue, normalize. now destruct (toBN (VStr s)).
  - apply andb_true_iff in Hacc as [Harr Hall].
    destruct (prop (name input) args) as [|s|n|l|o|fk]; try discriminate.
    simpl in Hall. apply acceptable_felts_normalize in Hall.
    unfold compileValue. unfold normalize at 1. simpl.
    now destruct (mapM normalize l).
Qed.

(** X12: validation is enough for encoding.  When an argument object
    passes validation, names only declared inputs, and holds no
    [undefined] and no struct-tagged value, the encoder does not throw.  (A
    struct-tagged value is validated by its tag alone, so its members can
    still make the encoder throw.) *)
Theorem validated_args_encode
  (this : Contract) (ty : CallType) (method : string) (args : Args)
  (methodAbi : FunctionAbi)
  (Hresolved : find_function this method = Some (AbiFunction methodAbi))
  (Hvalid : validateMethodAndArgs this ty method args = Ok tt)
  (Hobject : NoDup (map fst args))
  (Hdeclared : forall k, In k (map fst args) ->
                         In k (map name (inputs methodAbi)))
  (Hplain : Forall (fun kv => is_undefined (snd kv) = false
                              /\ has_property "type" (snd kv) = false) args) :
  exists c, compileCalldata args = Ok c.
Proof.
  assert (Hok : is_ok (compileCalldata args) = true).
  { unfold compileCalldata, Calldata. rewrite flatMapM_is_ok.
    apply forallb_forall.
    intros v Hv. unfold Object_values in Hv.
    apply in_map_iff in Hv as [[k v'] [Heq Hin]]. simpl in Heq. subst v'.
    destruct (proj1 (in_map_iff name _ k)
                (Hdeclared k (in_map fst _ _ Hin))) as [input [Hname Hinput]].
    unfold validateMethodAndArgs in Hvalid. rewrite Hresolved in Hvalid.
    destruct (assert _ _) as [[]|]; simpl in Hvalid; [|discriminate].
    destruct (forEachM_from_ok _ _ _ Hvalid input Hinput) as [_ Hone].
    pose proof (validateInput_accepts args input) as Hacc.
    rewrite Hone in Hacc. simpl in Hacc.
    rewrite Forall_forall in Hplain. destruct (Hplain _ Hin) as [Hdef Htag].
    simpl in Hdef, Htag.
    pose proof (@prop_in args k v Hobject Hin) as Hprop.
    rewrite <- Hname in Hprop.
    rewrite <- Hprop. apply accepted_value_compiles; rewrite ?Hprop; auto. }
  destruct (compileCalldata args) as [c|]; [now exists c | discriminate].
Qed.

Lemma validated_args_encode_witness :
  exists c,
    compileCalldata [("recipient", VStr "0x1"); ("amount", VStr "10")] = Ok c.
Proof.
  refine (@validated_args_encode
            Sample.erc20 INVOKE "mint"
            [("recipient", VStr "0x1"); ("amount", VStr "10")] Sample.mint
            eq_refl eq_refl _ _ _).
  - repeat constructor; simpl; intuition discriminate.
  - intros k Hk. exact Hk.
  - repeat constructor.
Defined.

(** X13: inputs are validated in declaration order and the first one
    that fails decides the exception: the inputs declared after it are not
    examined. *)
Theorem validateMethodAndArgs_first_failure
  (this : Contract) (ty : CallType) (method : string) (args : Args)
  (methodAbi : FunctionAbi) (pre post : list AbiEntry) (input : AbiEntry)
  (e : error)
  (Hfound : includes (invokeableFunctionNames this ty) method = true)
  (Hresolved : find_function this method = Some (AbiFunction methodAbi))
  (Hinputs : inputs methodAbi = (pre ++ input :: post)%list)
  (Hpre : forall i, In i pre -> validateInput args i = Ok tt)
  (Hbad : validateInput args input = Err e) :
  validateMethodAndArgs this ty method args = Err e.
Proof.
  unfold validateMethodAndArgs. rewrite Hfound, Hresolved, Hinputs. simpl.
  unfold forEachM. rewrite forEachM_from_first_error.
  - now rewrite Hbad.
  - intros x j Hx. now apply Hpre.
Qed.

Lemma validateMethodAndArgs_first_failure_witness :
  validateMethodAndArgs Sample.erc20 INVOKE "mint"
    [("amount", VStr "ten"); ("recipient", VNum 1)]
  = Err (AssertionError "arg recipient should be a felt (string)").
Proof.
  refine (@validateMethodAndArgs_first_failure
            Sample.erc20 INVOKE "mint"
            [("amount", VStr "ten"); ("recipient", VNum 1)] Sample.mint
            [] [Sample.felt "amount"] (Sample.felt "recipient") _
            eq_refl eq_refl eq_refl _ eq_refl).
  intros i [].
Defined.

Lemma function_names_In (l : list Abi) (f : FunctionAbi) :
  In (AbiFunction f) l -> In (fn_name f) (function_names l).
Proof.
  unfold function_names. intros Hin. apply in_flat_map.
  exists (AbiFunction f). split; [exact Hin | now left].
Qed.

Lemma function_unique (l : list Abi) (f1 f2 : FunctionAbi) :
  NoDup (function_names l) ->
  In (AbiFunction f1) l -> In (AbiFunction f2) l ->
  fn_name f1 = fn_name f2 -> f1 = f2.
Proof.
  induction l as [|a tl IH]; simpl; intros Hnd H1 H2 Hname; [contradiction|].
  destruct a as [f|s]; simpl in Hnd.
  - inversion Hnd as [|? ? Hnin Hnd']; subst.
    destruct H1 as [H1|H1], H2 as [H2|H2].
    + injection H1 as <-. now injection H2 as <-.
    + injection H1 as <-. exfalso. apply Hnin. rewrite Hname.
      now apply function_names_In.
    + injection H2 as <-. exfalso. apply Hnin. rewrite <- Hname.
      now apply function_names_In.
    + now apply IH.
  - destruct H1 as [H1|H1]; [discriminate|].
    destruct H2 as [H2|H2]; [discriminate|]. now apply IH.
Qed.

(** X14: when the ABI declares no two functions of the same name, no
    method passes validation both as an invocation and as a read-only call,
    whatever the arguments. *)
Theorem validateMethodAndArgs_exclusive
  (this : Contract) (method : string) (args1 args2 : Args)
  (Hnames : NoDup (function_names (abi this))) :
  is_ok (validateMethodAndArgs this INVOKE method args1)
  && is_ok (validateMethodAndArgs this CALL method args2) = false.
Proof.
  unfold validateMethodAndArgs.
  destruct (includes (invokeableFunctionNames this INVOKE) method) eqn:Hi;
    [|reflexivity].
  destruct (includes (invokeableFunctionNames this CALL) method) eqn:Hc;
    [|simpl; apply andb_false_r].
  exfalso.
  apply includes_In, invokeable_In in Hi as [f1 [Hin1 [Hn1 Hc1]]].
  apply includes_In, invokeable_In in Hc as [f2 [Hin2 [Hn2 Hc2]]].
  assert (f1 = f2)
    by (apply (@function_unique (abi this)); [assumption.. | congruence]).
  subst f2. simpl in Hc1, Hc2. rewrite Hc2 in Hc1. discriminate.
Qed.

Lemma validateMethodAndArgs_exclusive_witness :
  is_ok (validateMethodAndArgs Sample.erc20 INVOKE "mint" [])
  && is_ok (validateMethodAndArgs Sample.erc20 CALL "mint" []) = false.
Proof.
  apply validateMethodAndArgs_exclusive.
  repeat constructor; simpl; intuition discriminate.
Defined.

(** ** The decoder *)

Lemma next_suffix (it it' : cursor) (v : value) :
  next it = (v, it') -> exists consumed, it = (consumed ++ it')%list.
Proof.
  destruct it as [|x tl]; simpl; intros H; injection H as <- <-.
  - now exists [].
  - now exists [x].
Qed.

Lemma reduceM_suffix {A : Type}
  (f : dict value * cursor -> A -> result (dict value * cursor))
  (l : list A) :
  (forall acc it x acc' it',
     f (acc, it) x = Ok (acc', it') ->
     exists consumed, it = (consumed ++ it')%list) ->
  forall acc it acc' it',
    reduceM f l (acc, it) = Ok (acc', it') ->
    exists consumed, it = (consumed ++ it')%list.
Proof.
  intros Hf. induction l as [|x tl IH]; simpl; intros acc it acc' it' H.
  - injection H as <- <-. now exists [].
  - apply bind_ok in H as [[acc1 it1] [H1 H2]].
    destruct (Hf _ _ _ _ _ H1) as [c1 ->].
    destruct (IH _ _ _ _ H2) as [c2 ->].
    exists (c1 ++ c2)%list. now rewrite app_assoc.
Qed.

(** X15: the cursor only moves forward.  Whatever a field decodes to, the
    iterator it leaves is a suffix of the iterator it was given: elements
    are consumed from the front, in order, and none is read twice or put
    back, at any depth of nesting. *)
Theorem parseResponseField_forward_only
  (fuel : nat) (this : Contract) (el : element) (it it' : cursor)
  (currentAcc : option (dict value)) (v : value)
  (Hdecoded : parseResponseField fuel this el it currentAcc = Ok (v, it')) :
  exists consumed, it = (consumed ++ it')%list.
Proof.
  revert el it it' currentAcc v Hdecoded.
  induction fuel as [|fuel IH]; intros el it it' currentAcc v H;
    [discriminate|].
  cbn [parseResponseField] in H.
  destruct (String.eqb (element_type el) "felt").
  - injection H as H. now apply next_suffix in H.
  - destruct (String.eqb (element_type el) "felt*").
    + apply bind_ok in H as [n [_ H]]. apply bind_ok in H as [k [_ H]].
      destruct (max_array_length <? n)%N; [discriminate|].
      rewrite collect_spec in H.
      injection H as _ <-. exists (firstn k it).
      now rewrite firstn_skipn.
    + apply bind_ok in H as [entries [_ H]].
      apply bind_ok in H as [[acc1 it1] [Hred H]].
      injection H as _ <-. simpl.
      revert Hred. apply reduceM_suffix.
      intros acc it0 x acc' it0' Hx.
      apply bind_ok in Hx as [[v1 it2] [Hx Hr]].
      injection Hr as _ <-. exact (IH _ _ _ _ _ Hx).
Qed.

Lemma parseResponseField_forward_only_witness :
  exists consumed,
    [VStr "2"; VStr "7"; VStr "8"; VStr "9"]
    = (consumed ++ [VStr "9"])%list.
Proof.
  exact (@parseResponseField_forward_only
           1 Sample.store (Field (mkAbiEntry "data" "felt*"))
           [VStr "2"; VStr "7"; VStr "8"; VStr "9"] [VStr "9"]
           (Some [("data_len", VStr "3")])
           (VArr [VStr "2"; VStr "7"; VStr "8"]) eq_refl).
Defined.

(** Decoding a run of [felt] members never fails: each takes the next
    element, or [undefined] once the response has run out. *)
Lemma reduceM_felts_padded (fuel : nat) (this : Contract)
  (entries : list AbiEntry) :
  forall (acc : dict value) (it : cursor),
    Forall (fun e => type e = "felt") entries ->
    NoDup (map name entries) ->
    (forall e, In e entries -> ~ In (name e) (map fst acc)) ->
    reduceM (decodeMember (S fuel) this) entries (acc, it)
    = Ok ((acc ++ combine (map name entries)
                    (firstn (List.length entries) it
                     ++ repeat VUndef (List.length entries - List.length it)))%list,
          skipn (List.length entries) it).
Proof.
  induction entries as [|e tl IH]; intros acc it Hfelt Hnd Hfresh.
  - simpl. now rewrite app_nil_r.
  - inversion Hfelt as [|? ? Hty Hfelt']; subst.
    simpl in Hnd. inversion Hnd as [|? ? Hnin Hnd']; subst.
    cbn [reduceM]. unfold decodeMember at 1.
    cbn [parseResponseField element_type]. rewrite Hty.
    cbn [String.eqb Ascii.eqb Bool.eqb bind].
    rewrite dict_set_fresh by (apply Hfresh; now left).
    rewrite IH; auto.
    + destruct it as [|v it]; cbn [next fst snd List.length firstn skipn].
      * rewrite firstn_nil, skipn_nil, !Nat.sub_0_r. simpl.
        now rewrite <- app_assoc.
      * simpl. now rewrite <- app_assoc.
    + intros e' Hin. rewrite map_app, in_app_iff. simpl.
      intros [Hacc|[Heq|[]]].
      * exact (Hfresh e' (or_intror Hin) Hacc).
      * apply Hnin. rewrite Heq. now apply in_map.
Qed.

(** X16: a function that returns only felts decodes any response
    without an exception.  Each output takes the next element as it is;
    outputs beyond the end of the response are [undefined]; elements
    beyond the last output are ignored. *)
Theorem parseResponse_felts_total
  (this : Contract) (f : FunctionAbi) (response : list value) (fuel : nat)
  (Hresolved : find (fun a => String.eqb (abi_name a) (fn_name f)) (abi this)
               = Some (AbiFunction f))
  (Hregistry : dict_get "function" (structs this) = None)
  (Hfelts : Forall (fun e => type e = "felt") (outputs f))
  (Hnames : NoDup (map name (outputs f))) :
  parseResponse (2 + fuel) this (fn_name f) response
  = Ok (VObj (combine (map name (outputs f))
                (firstn (List.length (outputs f)) (flat response)
                 ++ repeat VUndef (List.length (outputs f)
                                   - List.length (flat response)))%list)).
Proof.
  unfold parseResponse. change (2 + fuel) with (S (S fuel)).
  rewrite Hresolved. rewrite parseResponseField_members by reflexivity.
  rewrite (member_entries_function _ _ Hregistry). cbn [bind].
  rewrite reduceM_felts_padded by auto. reflexivity.
Qed.

Lemma parseResponse_felts_total_witness :
  parseResponse 2 Sample.erc20 "balance_of" [] = Ok (VObj [("res", VUndef)])
  /\ parseResponse 2 Sample.erc20 "balance_of" [VStr "0x5"; VStr "0x6"]
     = Ok (VObj [("res", VStr "0x5")]).
Proof.
  split.
  - refine (@parseResponse_felts_total Sample.erc20 Sample.balance_of
              [] 0 eq_refl eq_refl _ _); repeat constructor.
    simpl. tauto.
  - refine (@parseResponse_felts_total Sample.erc20 Sample.balance_of
              [VStr "0x5"; VStr "0x6"] 0 eq_refl eq_refl _ _);
      repeat constructor.
    simpl. tauto.
Defined.

Lemma parseResponseField_struct_felts
  (fuel : nat) (this : Contract) (e : AbiEntry) (s : StructAbi)
  (it : cursor) (currentAcc : option (dict value)) :
  type e <> "felt" -> type e <> "felt*" ->
  dict_get (type e) (structs this) = Some s ->
  Forall (fun m => type m = "felt") (members s) ->
  NoDup (map name (members s)) ->
  parseResponseField (S (S fuel)) this (Field e) it currentAcc
  = Ok (VObj (combine (map name (members s))
                (firstn (List.length (members s)) it
                 ++ repeat VUndef (List.length (members s) - List.length it))%list),
        skipn (List.length (members s)) it).
Proof.
  intros Hfelt Harray Hregistered Hmembers Hnames.
  apply String.eqb_neq in Hfelt, Harray.
  rewrite parseResponseField_members by assumption.
  rewrite (@member_entries_registered this (Field e) s Hregistered).
  cbn [bind]. rewrite reduceM_felts_padded by auto. reflexivity.
Qed.

(** X17: a field whose type is a registered struct with felt members is
    decoded to an object with one entry per member, in member order, from
    the next elements of the response, as many as there are members, and
    the cursor is left after them; members beyond the end of the response
    are [undefined]. *)
Theorem parseResponseField_struct
  (fuel : nat) (this : Contract) (e : AbiEntry) (s : StructAbi)
  (it : cursor) (currentAcc : option (dict value))
  (Hfelt : type e <> "felt") (Harray : type e <> "felt*")
  (Hregistered : dict_get (type e) (structs this) = Some s)
  (Hmembers : Forall (fun m => type m = "felt") (members s))
  (Hnames : NoDup (map name (members s))) :
  parseResponseField (2 + fuel) this (Field e) it currentAcc
  = Ok (VObj (combine (map name (members s))
                (firstn (List.length (members s)) it
                 ++ repeat VUndef (List.length (members s) - List.length it))%list),
        skipn (List.length (members s)) it).
Proof.
  change (2 + fuel) with (S (S fuel)).
  now apply parseResponseField_struct_felts.
Qed.

Lemma parseResponseField_struct_witness :
  parseResponseField 2 Demo.shapes (Field (mkAbiEntry "p" "Point"))
    [VStr "5"; VStr "7"; VStr "9"] None
  = Ok (VObj [("x", VStr "5"); ("y", VStr "7")], [VStr "9"]).
Proof.
  refine (@parseResponseField_struct
            0 Demo.shapes (mkAbiEntry "p" "Point") Sample.Point
            [VStr "5"; VStr "7"; VStr "9"] None _ _ eq_refl _ _);
    try discriminate; repeat constructor; simpl; intuition discriminate.
Defined.

(** X18: a field whose type is neither [felt] nor [felt*] nor a
    registered struct (nor a name every object inherits) is not an error:
    it decodes to an empty object and consumes nothing, so the fields after
    it read the elements that were meant for it. *)
Theorem parseResponseField_unknown_type
  (fuel : nat) (this : Contract) (e : AbiEntry)
  (it : cursor) (currentAcc : option (dict value))
  (Hfelt : type e <> "felt") (Harray : type e <> "felt*")
  (Hunknown : dict_get (type e) (structs this) = None)
  (Hown : ~ In (type e) inherited_names) :
  parseResponseField (S fuel) this (Field e) it currentAcc = Ok (VObj [], it).
Proof.
  apply String.eqb_neq in Hfelt, Harray.
  rewrite parseResponseField_members by assumption.
  unfold member_entries. cbn [element_type].
  now rewrite Hunknown, (not_inherited Hown).
Qed.

Lemma parseResponseField_unknown_type_witness :
  parseResponseField 1 Demo.shapes (Field (mkAbiEntry "g" "Ghost"))
    [VStr "5"; VStr "7"] None
  = Ok (VObj [], [VStr "5"; VStr "7"]).
Proof.
  refine (@parseResponseField_unknown_type
            0 Demo.shapes (mkAbiEntry "g" "Ghost") [VStr "5"; VStr "7"] None
            _ _ eq_refl _); try discriminate.
  simpl. intuition discriminate.
Defined.

(** X19: a struct whose first member has the struct's own type cannot be
    decoded: the recursion never reaches the response and exhausts the
    call stack, at every depth allowed and whatever the response holds. *)
Theorem parseResponseField_self_reference
  (fuel : nat) (this : Contract) (e : AbiEntry) (s : StructAbi)
  (m : AbiEntry) (rest : list AbiEntry)
  (it : cursor) (currentAcc : option (dict value))
  (Hfelt : type e <> "felt") (Harray : type e <> "felt*")
  (Hregistered : dict_get (type e) (structs this) = Some s)
  (Hfirst : members s = m :: rest)
  (Hself : type m = type e) :
  parseResponseField fuel this (Field e) it currentAcc = Err StackExhausted.
Proof.
  revert e it currentAcc Hfelt Harray Hregistered Hself.
  induction fuel as [|fuel IH]; intros e it currentAcc Hfelt Harray Hreg Hself;
    [reflexivity|].
  pose proof Hfelt as Hf. pose proof Harray as Ha.
  apply String.eqb_neq in Hf, Ha.
  rewrite parseResponseField_members by assumption.
  rewrite (@member_entries_registered this (Field e) s Hreg). cbn [bind].
  rewrite Hfirst. cbn [reduceM].
  unfold decodeMember at 1.
  rewrite IH; [reflexivity | | | | reflexivity]; rewrite Hself; assumption.
Qed.

Lemma parseResponseField_self_reference_witness :
  parseResponseField 1000 Demo.shapes (Field (mkAbiEntry "c" "Chain"))
    [VStr "1"; VStr "2"] None
  = Err StackExhausted.
Proof.
  refine (@parseResponseField_self_reference
            1000 Demo.shapes (mkAbiEntry "c" "Chain") Demo.Chain
            (mkAbiEntry "next" "Chain") [Sample.felt "value"]
            [VStr "1"; VStr "2"] None _ _ eq_refl eq_refl eq_refl);
    discriminate.
Defined.

Lemma decoded_keys_exact (fuel : nat) (this : Contract) (l : list AbiEntry) :
  forall (acc0 acc : dict value) (it it' : cursor),
    reduceM (decodeMember fuel this) l (acc0, it) = Ok (acc, it') ->
    NoDup (map name l) ->
    (forall e, In e l -> ~ In (name e) (map fst acc0)) ->
    map fst acc = (map fst acc0 ++ map name l)%list.
Proof.
  induction l as [|m tl IH]; intros acc0 acc it it' Hred Hnd Hfresh.
  - simpl in Hred. injection Hred as <- <-. simpl. now rewrite app_nil_r.
  - cbn [reduceM] in Hred. apply bind_ok in Hred as [[acc1 it1] [Hm Htl]].
    unfold decodeMember in Hm. apply bind_ok in Hm as [r [_ Hr]].
    injection Hr as <- <-.
    simpl in Hnd. inversion Hnd as [|? ? Hnin Hnd']; subst.
    rewrite dict_set_fresh in Htl by (apply Hfresh; now left).
    rewrite (@IH _ _ _ _ Htl Hnd').
    + rewrite map_app. simpl. now rewrite <- app_assoc.
    + intros e' Hin. rewrite map_app, in_app_iff. simpl.
      intros [Hacc|[Heq|[]]].
      * exact (Hfresh e' (or_intror Hin) Hacc).
      * apply Hnin. rewrite Heq. now apply in_map.
Qed.

(** X20: whatever the types of the outputs, a response that decodes
    gives an object with one entry per declared output, under the output's
    name and in declaration order (for a function the ABI resolves under its
    name, with distinct output names and no struct named ['function']). *)
Theorem parseResponse_keys
  (this : Contract) (f : FunctionAbi) (response : list value) (fuel : nat)
  (v : value)
  (Hresolved : find (fun a => String.eqb (abi_name a) (fn_name f)) (abi this)
               = Some (AbiFunction f))
  (Hregistry : dict_get "function" (structs this) = None)
  (Hnames : NoDup (map name (outputs f)))
  (Hdecoded : parseResponse fuel this (fn_name f) response = Ok v) :
  exists o, v = VObj o /\ map fst o = map name (outputs f).
Proof.
  unfold parseResponse in Hdecoded. rewrite Hresolved in Hdecoded.
  destruct fuel as [|fuel]; [discriminate|].
  rewrite parseResponseField_members in Hdecoded by reflexivity.
  rewrite (member_entries_function _ _ Hregistry) in Hdecoded.
  cbn [bind] in Hdecoded.
  apply bind_ok in Hdecoded as [r [Hr Hv]]. injection Hv as <-.
  apply bind_ok in Hr as [[acc it'] [Hred Hr]]. injection Hr as <-.
  exists acc. split; [reflexivity|].
  now rewrite (@decoded_keys_exact _ _ _ _ _ _ _ Hred Hnames)
    by (intros e _ []).
Qed.

Lemma parseResponse_keys_witness :
  exists o,
    VObj [("data_len", VStr "1"); ("data", VArr [VStr "7"]);
          ("tail", VStr "8")] = VObj o
    /\ map fst o = ["data_len"; "data"; "tail"].
Proof.
  refine (@parseResponse_keys Sample.store Sample.get_data
            [VStr "1"; VStr "7"; VStr "8"] 2 _ eq_refl eq_refl _ eq_refl).
  repeat constructor; simpl; intuition discriminate.
Defined.

(** ** Echoes of arrays and structs *)

Lemma canonical_values (vs : list value) :
  Forall (fun v => canonical v = true) vs ->
  exists ns, vs = echo ns /\ mapM normalize vs = Ok ns.
Proof.
  unfold echo. induction 1 as [|v tl Hv _ [ns [-> Hns]]].
  - now exists [].
  - destruct v as [|s|n|l|o|fk]; try discriminate. unfold canonical in Hv.
    destruct (normalize (VStr s)) as [s'|] eqn:Hs; [|discriminate].
    apply String.eqb_eq in Hv. subst s'.
    exists (s :: ns). split; [reflexivity|].
    cbn [mapM map]. now rewrite Hs, Hns.
Qed.

Lemma append_length (a b : string) :
  String.length (a ++ b) = String.length a + String.length b.
Proof.
  induction a as [|ch a IH]; simpl; [reflexivity | now rewrite IH].
Qed.

Lemma len_name_distinct (k : string) : k ++ "_len" <> k.
Proof.
  intros H. apply (f_equal String.length) in H.
  rewrite append_length in H. simpl in H. lia.
Qed.

(** X21: how an array argument comes back.  For a function that returns
    [<k>_len: felt] followed by [<k>: felt*], the echo of the encoding of
    [{ k: array }], the array (a JavaScript array) holding felt strings in
    normal form, decodes
    to the array itself preceded by an entry [<k>_len] holding its length:
    the length that the encoder prefixed is the one the decoder reads. *)
Theorem echo_array_roundtrip
  (this : Contract) (f : FunctionAbi) (k : string) (l : list value)
  (fuel : nat)
  (Hresolved : find (fun a => String.eqb (abi_name a) (fn_name f)) (abi this)
               = Some (AbiFunction f))
  (Hregistry : dict_get "function" (structs this) = None)
  (Houtputs : outputs f
              = [mkAbiEntry (k ++ "_len") "felt"; mkAbiEntry k "felt*"])
  (Harray : js_array l)
  (Hcanonical : Forall (fun v => canonical v = true) l) :
  exists c,
    compileCalldata [(k, VArr l)] = Ok c
    /\ parseResponse (2 + fuel) this (fn_name f) (echo c)
       = Ok (VObj [(k ++ "_len", VStr (BN_toString (N.of_nat (List.length l))));
                   (k, VArr l)]).
Proof.
  destruct (canonical_values Hcanonical) as [ns [-> Hns]].
  exists (BN_toString (N.of_nat (List.length (echo ns))) :: ns). split.
  - unfold compileCalldata.
    change (Object_values [(k, VArr (echo ns))]) with [VArr (echo ns)].
    cbn [flatMapM]. rewrite (compileValue_array _ Hns). cbn [bind].
    now rewrite app_nil_r.
  - unfold parseResponse. change (2 + fuel) with (S (S fuel)).
    rewrite flat_echo, Hresolved.
    rewrite parseResponseField_members by reflexivity.
    rewrite (member_entries_function _ _ Hregistry). cbn [bind].
    rewrite Houtputs.
    cbn [reduceM]. unfold decodeMember at 1.
    cbn [parseResponseField element_type type String.eqb Ascii.eqb Bool.eqb
         echo map next bind fst snd dict_set name].
    unfold decodeMember at 1.
    rewrite parseResponseField_array by reflexivity.
    cbn [optional_prop name]. unfold prop. cbn [dict_get].
    rewrite String.eqb_refl, toBN_toString. cbn [bind fst snd].
    destruct (count_fits Harray) as [-> ->]. cbn [bind fst snd].
    rewrite Nat2N.id.
    fold (echo ns). rewrite firstn_all, ?skipn_all, Nat.sub_diag.
    cbn [repeat dict_set]. rewrite app_nil_r.
    destruct (String.eqb_spec (k ++ "_len") k) as [Heq|_];
      [now apply len_name_distinct in Heq | reflexivity].
Qed.

Lemma echo_array_roundtrip_witness :
  exists c,
    compileCalldata [("data", VArr [VStr "5"; VStr "6"])] = Ok c
    /\ parseResponse 2 Sample.mirror "echo_array" (echo c)
       = Ok (VObj [("data_len", VStr "2");
                   ("data", VArr [VStr "5"; VStr "6"])]).
Proof.
  refine (@echo_array_roundtrip Sample.mirror Sample.echo_array "data"
            [VStr "5"; VStr "6"] 0 eq_refl eq_refl eq_refl _ _).
  - unfold js_array. vm_compute. discriminate.
  - repeat constructor.
Defined.

(** X22: how a struct argument comes back.  For a function that returns
    one value of a registered struct type with felt members, the echo of
    the encoding of a struct-tagged value that lists those members, in
    declaration order, as felt strings in normal form decodes to the same
    members without the tag. *)
Theorem echo_struct_roundtrip
  (this : Contract) (f : FunctionAbi) (k t : string) (s : StructAbi)
  (o : dict value) (fuel : nat)
  (Hresolved : find (fun a => String.eqb (abi_name a) (fn_name f)) (abi this)
               = Some (AbiFunction f))
  (Hregistry : dict_get "function" (structs this) = None)
  (Houtputs : outputs f = [mkAbiEntry k t])
  (Hfelt : t <> "felt") (Harray : t <> "felt*")
  (Hregistered : dict_get t (structs this) = Some s)
  (Hmembers : Forall (fun m => type m = "felt") (members s))
  (Hnames : NoDup (map name (members s)))
  (Htag : has_key "type" o = true)
  (Hkeys : map fst (wire_members o) = map name (members s))
  (Hcanonical : Forall (fun v => canonical v = true)
                       (Object_values (wire_members o))) :
  exists c,
    compileCalldata [(k, VObj o)] = Ok c
    /\ parseResponse (3 + fuel) this (fn_name f) (echo c)
       = Ok (VObj [(k, VObj (wire_members o))]).
Proof.
  destruct (canonical_values Hcanonical) as [ns [Hvals Hns]].
  exists ns. split.
  - unfold compileCalldata.
    change (Object_values [(k, VObj o)]) with [VObj o].
    cbn [flatMapM]. rewrite (compileValue_struct o Htag Hns). cbn [bind].
    now rewrite app_nil_r.
  - assert (Hlen : List.length (members s) = List.length (echo ns)).
    { rewrite <- Hvals. unfold Object_values.
      rewrite length_map, <- (length_map name), <- Hkeys. apply length_map. }
    unfold parseResponse. change (3 + fuel) with (S (S (S fuel))).
    rewrite flat_echo, Hresolved.
    rewrite parseResponseField_members by reflexivity.
    rewrite (member_entries_function _ _ Hregistry). cbn [bind].
    rewrite Houtputs.
    cbn [reduceM]. unfold decodeMember.
    rewrite (@parseResponseField_struct_felts fuel this (mkAbiEntry k t) s)
      by assumption.
    cbn [bind fst snd dict_set name].
    rewrite Hlen, firstn_all, Nat.sub_diag. cbn [repeat].
    rewrite app_nil_r, <- Hkeys, <- Hvals.
    unfold Object_values. now rewrite combine_fst_snd.
Qed.

Lemma echo_struct_roundtrip_witness :
  exists c,
    compileCalldata
      [("p", VObj [("type", VStr "struct"); ("x", VStr "1"); ("y", VStr "2")])]
    = Ok c
    /\ parseResponse 3 Sample.mirror "echo_point" (echo c)
       = Ok (VObj [("p", VObj [("x", VStr "1"); ("y", VStr "2")])]).
Proof.
  refine (@echo_struct_roundtrip Sample.mirror Sample.echo_point "p" "Point"
            Sample.Point
            [("type", VStr "struct"); ("x", VStr "1"); ("y", VStr "2")] 0
            eq_refl eq_refl eq_refl _ _ eq_refl _ _ eq_refl eq_refl _);
    try discriminate; repeat constructor; simpl; intuition discriminate.
Defined.

(** ** Nested responses *)

Lemma flat_plain (l : list value) :
  forallb (fun w => negb (isArray w)) l = true -> flat l = l.
Proof.
  unfold flat. induction l as [|v tl IH]; simpl; [reflexivity|].
  intros H. apply andb_true_iff in H as [Hv Htl].
  rewrite (IH Htl). now destruct v.
Qed.

Lemma flat_shallow (response : list value) :
  shallow response = true ->
  forallb (fun w => negb (isArray w)) (flat response) = true.
Proof.
  unfold shallow, flat. induction response as [|v tl IH]; simpl;
    [reflexivity|].
  intros H. apply andb_true_iff in H as [Hv Htl].
  rewrite forallb_app, (IH Htl), andb_true_r.
  destruct v; try reflexivity. exact Hv.
Qed.

(** X23: a response that the transport nests one level deep (a sequence
    of strings and of sequences of strings) is decoded as its flattening:
    the grouping of the elements has no effect on the result. *)
Theorem parseResponse_nested
  (fuel : nat) (this : Contract) (method : string) (response : list value)
  (Hshallow : shallow response = true) :
  parseResponse fuel this method response
  = parseResponse fuel this method (flat response).
Proof.
  unfold parseResponse.
  now rewrite (flat_plain (flat response) (flat_shallow _ Hshallow)).
Qed.

Lemma parseResponse_nested_witness :
  parseResponse 2 Sample.store "get_data"
    [VArr [VStr "2"; VStr "7"]; VStr "8"; VArr [VStr "9"]]
  = parseResponse 2 Sample.store "get_data"
      [VStr "2"; VStr "7"; VStr "8"; VStr "9"].
Proof.
  exact (@parseResponse_nested 2 Sample.store "get_data"
           [VArr [VStr "2"; VStr "7"]; VStr "8"; VArr [VStr "9"]] eq_refl).
Defined.

(** ** The facade *)

Lemma reduceM_ext {A S : Type} (f g : S -> A -> result S) (l : list A)
  (st : S) :
  (forall s x, f s x = g s x) -> reduceM f l st = reduceM g l st.
Proof.
  intros Hfg. revert st. induction l as [|x tl IH]; intros st; simpl;
    [reflexivity|].
  rewrite Hfg. destruct (g st x); simpl; [apply IH | reflexivity].
Qed.

Lemma functional_bind {A B : Type} (m : result A) (k1 k2 : A -> result B) :
  (forall a, k1 a = k2 a) -> bind m k1 = bind m k2.
Proof.
  intros Hk. destruct m; simpl; [apply Hk | reflexivity].
Qed.

(** The decoder reads the handle only through its registry. *)
Lemma parseResponseField_registry (fuel : nat) (this1 this2 : Contract) :
  structs this1 = structs this2 ->
  forall el it currentAcc,
    parseResponseField fuel this1 el it currentAcc
    = parseResponseField fuel this2 el it currentAcc.
Proof.
  intros Hreg. induction fuel as [|fuel IH]; intros el it currentAcc;
    [reflexivity|].
  cbn [parseResponseField]. unfold member_entries. rewrite Hreg.
  destruct (String.eqb (element_type el) "felt"); [reflexivity|].
  destruct (String.eqb (element_type el) "felt*"); [reflexivity|].
  apply functional_bind. intros entries.
  f_equal. apply reduceM_ext. intros [acc it0] member. now rewrite IH.
Qed.

(** X24: [connect] rebinds the address and nothing else.  The handle it
    returns validates and decodes exactly as before, a later [connect]
    replaces an earlier one, and a read-only call through it is the same
    call made at the new address. *)
Theorem connect_rebinds_address
  (getSelectorFromName : string -> string)
  (callContract : CallRequest -> result (list value))
  (this : Contract) (address address' : string) (ty : CallType)
  (method : string) (args : Args) (response : list value) (fuel : nat) :
  validateMethodAndArgs (connect this address) ty method args
  = validateMethodAndArgs this ty method args
  /\ parseResponse fuel (connect this address) method response
     = parseResponse fuel this method response
  /\ connect (connect this address) address' = connect this address'
  /\ call getSelectorFromName callContract fuel (connect this address)
       method args
     = (validateMethodAndArgs this CALL method args ;;;
        c <- compileCalldata args ;;
        x <- callContract
               {| contract_address := address; calldata := c;
                  entry_point_selector := getSelectorFromName method |} ;;
        parseResponse fuel this method x).
Proof.
  assert (Hparse : forall r,
    parseResponse fuel (connect this address) method r
    = parseResponse fuel this method r).
  { intros r. unfold parseResponse. simpl.
    destruct (find _ _); [|reflexivity].
    now rewrite (@parseResponseField_registry fuel (connect this address) this). }
  split; [reflexivity|]. split; [apply Hparse|]. split; [reflexivity|].
  unfold call. simpl.
  change (validateMethodAndArgs (connect this address) CALL method args)
    with (validateMethodAndArgs this CALL method args).
  destruct (validateMethodAndArgs this CALL method args); simpl;
    [|reflexivity].
  destruct (compileCalldata args); simpl; [|reflexivity].
  destruct (callContract _); simpl; [apply Hparse | reflexivity].
Qed.

(** X25: an invocation reaches the provider only after every check.  It
    returns the provider's receipt exactly when the handle is connected,
    the method validates as an invocation, the arguments encode, and the
    provider accepts the transaction made of that address, that calldata,
    the selector of the method and the signature; on a handle that is not
    connected it throws the connection assertion, whatever the method. *)
Theorem invoke_reaches_provider
  (getSelectorFromName : string -> string) (Receipt : Type)
  (addTransaction : Transaction -> result Receipt)
  (this : Contract) (method : string) (args : Args)
  (signature : option (list string)) (receipt : Receipt) :
  (invoke getSelectorFromName addTransaction this method args signature
   = Ok receipt
   <-> exists address c,
         connectedTo this = Some address
         /\ validateMethodAndArgs this INVOKE method args = Ok tt
         /\ compileCalldata args = Ok c
         /\ addTransaction
              {| tx_type := "INVOKE_FUNCTION";
                 tx_contract_address := address;
                 tx_signature := signature;
                 tx_calldata := c;
                 tx_entry_point_selector := getSelectorFromName method |}
            = Ok receipt)
  /\ (connectedTo this = None ->
      invoke getSelectorFromName addTransaction this method args signature
      = Err (AssertionError not_connected_message)).
Proof.
  unfold invoke. split; [|now intros ->].
  split.
  - destruct (connectedTo this) as [address|]; [|discriminate].
    intros H. apply bind_ok in H as [[] [Hv H]].
    apply bind_ok in H as [c [Hc H]].
    exists address, c. auto.
  - intros [address [c [-> [Hv [Hc H]]]]]. rewrite Hv, Hc. exact H.
Qed.

Lemma invoke_reaches_provider_witness :
  exists address c,
    connectedTo Demo.shapes = Some address
    /\ validateMethodAndArgs Demo.shapes INVOKE "mint"
         [("recipient", VStr "0x1"); ("amount", VStr "10")] = Ok tt
    /\ compileCalldata [("recipient", VStr "0x1"); ("amount", VStr "10")]
       = Ok c
    /\ Demo.echo_transaction
         {| tx_type := "INVOKE_FUNCTION";
            tx_contract_address := address;
            tx_signature := None;
            tx_calldata := c;
            tx_entry_point_selector := "mint" |}
       = Ok ["1"; "10"].
Proof.
  exact (proj1 (proj1 (@invoke_reaches_provider
                         (fun n => n) Calldata Demo.echo_transaction
                         Demo.shapes "mint"
                         [("recipient", VStr "0x1"); ("amount", VStr "10")]
                         None ["1"; "10"])) eq_refl).
Defined.

(** X26: a read-only call returns a value exactly when the handle is
    connected, the method validates as a call, the arguments encode, the
    provider answers the request made of that address, that calldata and
    the selector of the method, and the answer decodes to that value under
    the method's own ABI entry; nothing is sent otherwise. *)
Theorem call_reaches_provider
  (getSelectorFromName : string -> string)
  (callContract : CallRequest -> result (list value))
  (fuel : nat) (this : Contract) (method : string) (args : Args)
  (v : value) :
  call getSelectorFromName callContract fuel this method args = Ok v
  <-> exists address c x,
        connectedTo this = Some address
        /\ validateMethodAndArgs this CALL method args = Ok tt
        /\ compileCalldata args = Ok c
        /\ callContract
             {| contract_address := address; calldata := c;
                entry_point_selector := getSelectorFromName method |}
           = Ok x
        /\ parseResponse fuel this method x = Ok v.
Proof.
  unfold call. split.
  - destruct (connectedTo this) as [address|]; [|discriminate].
    intros H. apply bind_ok in H as [[] [Hv H]].
    apply bind_ok in H as [c [Hc H]].
    apply bind_ok in H as [x [Hx H]].
    exists address, c, x. auto.
  - intros [address [c [x [-> [Hv [Hc [Hx H]]]]]]].
    rewrite Hv, Hc. simpl. rewrite Hx. exact H.
Qed.

Lemma call_reaches_provider_witness :
  call (fun n => n) Demo.echo_call 2 Demo.shapes "balance_of"
    [("user", VStr "0x10")]
  = Ok (VObj [("res", VStr "16")]).
Proof.
  apply (proj2 (@call_reaches_provider
                  (fun n => n) Demo.echo_call 2 Demo.shapes "balance_of"
                  [("user", VStr "0x10")] (VObj [("res", VStr "16")]))).
  exists "0xabc", ["16"], [VStr "16"]. repeat split.
Defined.

(** ** Method resolution across the validator and the decoder *)

Lemma find_function_In (this : Contract) (method : string) (f : FunctionAbi) :
  In (AbiFunction f) (abi this) -> fn_name f = method ->
  exists g, find_function this method = Some (AbiFunction g).
Proof.
  unfold find_function. generalize (abi this). intros l.
  induction l as [|a tl IH]; simpl; intros Hin Hname; [contradiction|].
  destruct a as [g|s]; simpl.
  - destruct (String.eqb (fn_name g) method) eqn:Hg; simpl.
    + now exists g.
    + destruct Hin as [Heq|Hin]; [|now apply IH].
      injection Heq as ->. rewrite Hname, String.eqb_refl in Hg. discriminate.
  - rewrite andb_false_r.
    destruct Hin as [Heq|Hin]; [discriminate | now apply IH].
Qed.

(** X27: validation throws nothing but assertions.  Whenever it fails,
    the exception is an assertion with its message: once the method-name
    assertion has passed, the lookup of the method's entry cannot come back
    empty, so its inputs are never read off [undefined]. *)
Theorem validateMethodAndArgs_only_assertions
  (this : Contract) (ty : CallType) (method : string) (args : Args)
  (e : error)
  (Hfails : validateMethodAndArgs this ty method args = Err e) :
  exists msg, e = AssertionError msg.
Proof.
  unfold validateMethodAndArgs in Hfails.
  destruct (includes (invokeableFunctionNames this ty) method) eqn:Hinc;
    simpl in Hfails.
  - apply includes_In, invokeable_In in Hinc as [f [Hin [Hname _]]].
    destruct (@find_function_In this method f Hin Hname) as [g Hg].
    rewrite Hg in Hfails.
    apply forEachM_from_err in Hfails as [x [j [_ Hx]]].
    apply validateInput_message in Hx as [rest ->]. eexists. reflexivity.
  - injection Hfails as <-. eexists. reflexivity.
Qed.

Lemma validateMethodAndArgs_only_assertions_witness :
  exists msg,
    AssertionError "arg amount should be decimal or hexadecimal"
    = AssertionError msg.
Proof.
  exact (@validateMethodAndArgs_only_assertions
           Sample.erc20 INVOKE "mint" [("amount", VStr "ten")] _ eq_refl).
Defined.

(** X28: when no two entries of the ABI share a name, the entry whose
    inputs the validator checks is the entry whose outputs the decoder
    reads.  (The validator looks for a function of that name, the decoder
    for any entry of that name.) *)
Theorem resolution_agrees
  (this : Contract) (method : string) (f : FunctionAbi)
  (Hnames : NoDup (map abi_name (abi this)))
  (Hresolved : find_function this method = Some (AbiFunction f)) :
  find (fun a => String.eqb (abi_name a) method) (abi this)
  = Some (AbiFunction f).
Proof.
  unfold find_function in Hresolved. revert Hnames Hresolved.
  generalize (abi this). intros l.
  induction l as [|a tl IH]; simpl; intros Hnd Hres; [discriminate|].
  inversion Hnd as [|? ? Hnin Hnd']; subst.
  destruct (String.eqb_spec (abi_name a) method) as [Heq|Hne]; simpl in Hres.
  - destruct a as [g|s]; simpl in Hres; [exact Hres|].
    exfalso. apply find_some in Hres as [Hin Hp].
    apply andb_true_iff in Hp as [Hp _]. apply String.eqb_eq in Hp.
    apply Hnin. rewrite Heq, <- Hp. now apply in_map.
  - now apply IH.
Qed.

Lemma resolution_agrees_witness :
  find (fun a => String.eqb (abi_name a) "mint") (abi Sample.erc20)
  = Some (AbiFunction Sample.mint).
Proof.
  refine (@resolution_agrees Sample.erc20 "mint" Sample.mint _ eq_refl).
  repeat constructor; simpl; intuition discriminate.
Defined.
